(** * Usage tracking for language-model calls (dspy/utils/usage_tracker.py)

    A shallow embedding of [UsageTracker] and [track_usage], and the
    properties of merging, recording and totalling usage records.

    Python values are an inductive type; a Python [dict] is an
    insertion-ordered association list with first-match lookup, whose keys
    are pairwise distinct in every dict Python can build ([unique_keys]).
    A call that may raise returns a [may_raise]. *)

From Stdlib Require Import List String Ascii ZArith Bool Lia Permutation.
Import ListNotations.
Local Open Scope string_scope.
Local Open Scope Z_scope.

Set Warnings "-register-all".

(** ** Exceptions *)

Inductive exn : Type :=
| TypeError
| ValueError.

Inductive may_raise (A : Type) : Type :=
| Ok (a : A)
| Raise (e : exn).

Arguments Ok {A} a.
Arguments Raise {A} e.

Definition bind {A B : Type} (m : may_raise A) (f : A -> may_raise B) : may_raise B :=
  match m with
  | Ok a => f a
  | Raise e => Raise e
  end.

Notation "x <- m ;; k" := (bind m (fun x => k))
  (at level 61, m at next level, right associativity).

(** ** Ordered dictionaries *)

Module Dict.
Set Implicit Arguments.
Section Ops.
Variable V : Type.

Definition t : Type := list (string * V).

(** [d.get(k)] / [d[k]] on a present key. *)
Fixpoint get (k : string) (d : t) : option V :=
  match d with
  | [] => None
  | (k', v) :: rest => if String.eqb k k' then Some v else get k rest
  end.

(** [k in d]. *)
Definition mem (k : string) (d : t) : bool :=
  match get k d with Some _ => true | None => false end.

(** [d[k] = v]: a present key keeps its position, a new key goes last. *)
Fixpoint set (k : string) (v : V) (d : t) : t :=
  match d with
  | [] => [(k, v)]
  | (k', v') :: rest =>
      if String.eqb k k' then (k', v) :: rest else (k', v') :: set k v rest
  end.

(** [len(d) == 0]. *)
Definition is_empty (d : t) : bool :=
  match d with [] => true | _ :: _ => false end.

(** Keys of a Python dict are pairwise distinct. *)
Fixpoint unique_keys (d : t) : bool :=
  match d with
  | [] => true
  | (k, _) :: rest => negb (mem k rest) && unique_keys rest
  end.
End Ops.
Unset Implicit Arguments.
End Dict.

(** ** Python values occurring in usage records *)

Inductive value : Type :=
| VNone
| VBool (b : bool)
| VInt (z : Z)
| VStr (s : string)
| VDict (d : list (string * value)).

Definition dict : Type := Dict.t value.

(** [isinstance(v, dict)], [isinstance(v, bool)], [v is None]. *)
Definition is_dict (v : value) : bool :=
  match v with VDict _ => true | _ => false end.

Definition is_bool (v : value) : bool :=
  match v with VBool _ => true | _ => false end.

Definition is_none (v : value) : bool :=
  match v with VNone => true | _ => false end.

(** Truth value of an object, as [bool(v)] and [if v:] compute it. *)
Definition truthy (v : value) : bool :=
  match v with
  | VNone => false
  | VBool b => b
  | VInt z => negb (z =? 0)
  | VStr s => negb (String.eqb s "")
  | VDict d => negb (Dict.is_empty d)
  end.

(** [x or y]. *)
Definition py_or (x y : value) : value := if truthy x then x else y.

(** [int(b)]: [bool] is a subclass of [int]. *)
Definition int_of_bool (b : bool) : Z := if b then 1 else 0.

(** [x + y] on the values of a usage record: integers add, strings
    concatenate; a number and a string, [None] and anything, or a [dict]
    and anything raise [TypeError]. *)
Definition py_add (x y : value) : may_raise value :=
  match x, y with
  | VInt a, VInt b => Ok (VInt (a + b))
  | VInt a, VBool b => Ok (VInt (a + int_of_bool b))
  | VBool a, VInt b => Ok (VInt (int_of_bool a + b))
  | VBool a, VBool b => Ok (VInt (int_of_bool a + int_of_bool b))
  | VStr a, VStr b => Ok (VStr (a ++ b))
  | _, _ => Raise TypeError
  end.

(** [dict(x)]: a copy of a mapping; iterating a non-empty string yields
    one-character items ([ValueError]); other scalars are not iterable. *)
Definition py_dict (x : value) : may_raise dict :=
  match x with
  | VDict d => Ok d
  | VStr s => if String.eqb s "" then Ok [] else Raise ValueError
  | VNone | VBool _ | VInt _ => Raise TypeError
  end.

(** [x if x is not None else 0]. *)
Definition or_zero (x : value) : value :=
  if is_none x then VInt 0 else x.

(** ** Scalars meeting at a key *)

(** Lines 64-78: both values are scalars. *)
Definition merge_scalars (v rk : value) : value :=
  if is_bool v || is_bool rk then VBool (truthy (py_or v rk))
  else
    let v_value := or_zero v in
    let result_value := or_zero rk in
    match py_add result_value v_value with
    | Ok s => s
    | Raise _ => if is_none result_value then v_value else result_value
    end.

(** ** Records as values: UsageTracker *)

Module Values.

Section MergeLoop.
(** The value stored at a key present on both sides (lines 55-78). *)
Variable on_both : value -> value -> value.

(** Lines 52-81: the loop over [usage_entry1.items()], updating [result]. *)
Fixpoint merge_loop (items : dict) (result : dict) : dict :=
  match items with
  | [] => result
  | (k, v) :: rest =>
      merge_loop rest
        (match Dict.get k result with
         | Some rk => Dict.set k (on_both v rk) result
         | None => Dict.set k v result
         end)
  end.

(** The method on two dicts, neither of them [None] (lines 46-82); the
    recursive call of line 57 is this, with [on_both] the merge of values. *)
Definition merge_dicts (usage_entry1 usage_entry2 : dict) : dict :=
  if Dict.is_empty usage_entry1 then usage_entry2
  else if Dict.is_empty usage_entry2 then usage_entry1
  else merge_loop usage_entry1 usage_entry2.
End MergeLoop.

(** Lines 55-78: [v] comes from [usage_entry1], [rk] is [result[k]]. *)
Fixpoint merge_values (v rk : value) {struct v} : value :=
  match v with
  | VDict d1 =>
      match rk with
      | VDict d2 => VDict (merge_dicts merge_values d1 d2)
      | _ => VDict d1
      end
  | _ =>
      match rk with
      | VDict d2 => VDict d2
      | _ => merge_scalars v rk
      end
  end.

(** [e is None or len(e) == 0]. *)
Definition absent_or_empty (e : option dict) : bool :=
  match e with
  | None => true
  | Some d => Dict.is_empty d
  end.

(** [dict(e)] of an argument of the method: [dict(None)] raises. *)
Definition py_dict_of (e : option dict) : may_raise dict :=
  match e with
  | None => Raise TypeError
  | Some d => Ok d
  end.

(** Lines 32-82. Either argument may be [None]. *)
Definition _merge_usage_entries (usage_entry1 usage_entry2 : option dict)
  : may_raise dict :=
  if absent_or_empty usage_entry1 then py_dict_of usage_entry2
  else if absent_or_empty usage_entry2 then py_dict_of usage_entry1
  else
    match usage_entry1, usage_entry2 with
    | Some e1, Some e2 => Ok (merge_loop merge_values e1 e2)
    | _, _ => Raise TypeError
    end.

(** [self.usage_data]: a [defaultdict(list)] from LM name to usage entries. *)
Record UsageTracker : Type := mkUsageTracker {
  usage_data : Dict.t (list dict)
}.

(** [UsageTracker()]. *)
Definition new_tracker : UsageTracker := mkUsageTracker [].

(** Lines 26-29: replace a truthy detail field by [dict] of it. *)
Definition copy_details (field : string) (result : dict) : may_raise dict :=
  match Dict.get field result with
  | Some details =>
      if truthy details
      then d <- py_dict details ;; Ok (Dict.set field (VDict d) result)
      else Ok result
  | None => Ok result
  end.

(** Lines 23-30. *)
Definition _flatten_usage_entry (usage_entry : dict) : may_raise dict :=
  result <- copy_details "completion_tokens_details" usage_entry ;;
  copy_details "prompt_tokens_details" result.

(** [data[lm]] on a [defaultdict(list)]: a missing key is inserted with an
    empty list before the lookup returns. *)
Definition defaultdict_getitem (lm : string) (data : Dict.t (list dict))
  : list dict * Dict.t (list dict) :=
  match Dict.get lm data with
  | Some entries => (entries, data)
  | None => ([], Dict.set lm [] data)
  end.

(** Line 86-87. [self.usage_data[lm]] is evaluated before the argument of
    [append], so the list for [lm] exists even when flattening raises. *)
Definition add_usage (lm : string) (usage_entry : dict) (self : UsageTracker)
  : UsageTracker * may_raise unit :=
  if (0 <? List.length usage_entry)%nat then
    let (entries, data) := defaultdict_getitem lm (usage_data self) in
    match _flatten_usage_entry usage_entry with
    | Ok entry => (mkUsageTracker (Dict.set lm (entries ++ [entry])%list data), Ok tt)
    | Raise e => (mkUsageTracker data, Raise e)
    end
  else (self, Ok tt).

(** Lines 93-95: the fold of one LM's entries, from [total_usage]. *)
Fixpoint merge_all (usage_entries : list dict) (total_usage : dict)
  : may_raise dict :=
  match usage_entries with
  | [] => Ok total_usage
  | usage_entry :: rest =>
      total <- _merge_usage_entries (Some total_usage) (Some usage_entry) ;;
      merge_all rest total
  end.

(** Lines 92-96: the loop over [self.usage_data.items()]. *)
Fixpoint totals_loop (items : Dict.t (list dict))
    (total_usage_by_lm : Dict.t dict) : may_raise (Dict.t dict) :=
  match items with
  | [] => Ok total_usage_by_lm
  | (lm, usage_entries) :: rest =>
      total_usage <- merge_all usage_entries [] ;;
      totals_loop rest (Dict.set lm total_usage total_usage_by_lm)
  end.

(** Lines 89-97. *)
Definition get_total_tokens (self : UsageTracker) : may_raise (Dict.t dict) :=
  totals_loop (usage_data self) [].

(** A caller's sequence of [add_usage] calls; a call that raises leaves the
    tracker as the raising call left it and the caller goes on. *)
Fixpoint add_usages (calls : list (string * dict)) (self : UsageTracker)
  : UsageTracker :=
  match calls with
  | [] => self
  | (lm, usage_entry) :: rest => add_usages rest (fst (add_usage lm usage_entry self))
  end.

End Values.
Import Values.

(** ** The scoped tracking session *)

Module Session.

(** A tracker is an object; the ambient settings and the caller hold
    references to it. *)
Definition tracker_ref : Type := nat.

(** An entry of the ambient settings: the active tracker, or any other
    configured value. *)
Inductive setting : Type :=
| ActiveTracker (r : tracker_ref)
| Configured (v : value).

(** What a scope body can see and change: the ambient settings and the
    tracker objects. *)
Record world : Type := mkWorld {
  ambient : Dict.t setting;
  trackers : list UsageTracker
}.

Definition with_ambient (s : Dict.t setting) (w : world) : world :=
  mkWorld s (trackers w).

(** [UsageTracker()]: a new object, referenced by the next free index. *)
Definition new_UsageTracker (w : world) : tracker_ref * world :=
  (List.length (trackers w), mkWorld (ambient w) (trackers w ++ [new_tracker])).

(** A context manager: entering returns the value bound by [as] and the
    action run on leaving the block, on the normal and on the raising
    path alike. *)
Definition context_manager (R : Type) : Type :=
  world -> (R * (world -> world)) * world.

(** [with cm as r: body]. The body's exception, if any, propagates after
    the exit action has run. *)
Definition with_block {R A : Type} (cm : context_manager R)
    (body : R -> world -> world * may_raise A) (w : world)
  : world * may_raise A :=
  let '((r, leave), w1) := cm w in
  let (w2, outcome) := body r w1 in
  (leave w2, outcome).

(** [{**current, **kwargs}]. *)
Definition override (kwargs current : Dict.t setting) : Dict.t setting :=
  fold_left (fun acc p => Dict.set (fst p) (snd p) acc) kwargs current.

(** Modelled from the spec: [settings.context] (dspy/dsp/utils/settings.py
    is not among the sources). It publishes the given settings in the
    ambient execution context for the duration of the block and, on exit,
    normal or via an error, restores the previous ambient context state
    exactly. *)
Definition settings_context (kwargs : Dict.t setting) : context_manager unit :=
  fun w =>
    let previous := ambient w in
    ((tt, with_ambient previous), with_ambient (override kwargs previous) w).

(** Lines 100-106. The generator runs to its [yield] on entry; leaving the
    block resumes it inside the inner [with], whose exit action then runs. *)
Definition track_usage : context_manager tracker_ref :=
  fun w =>
    let (tracker, w1) := new_UsageTracker w in
    let '((_, leave), w2) :=
      settings_context [("usage_tracker", ActiveTracker tracker)] w1 in
    ((tracker, leave), w2).

End Session.

(** ** Records as shared, mutable objects
    The value-level embedding treats a record as a value. Here a [dict] is an
    object in a heap: a field holds a scalar or a reference to another
    [dict] object, [dict(x)] and [{}] allocate, [result[k] = v] overwrites
    the object [result] refers to, and a field copied from one record to
    another shares the object it refers to. *)

Module Heap.

Definition addr : Type := nat.

Inductive hvalue : Type :=
| HNone
| HBool (b : bool)
| HInt (z : Z)
| HStr (s : string)
| HRef (a : addr).

(** A [dict] object and the heap of all of them, by address. *)
Definition obj : Type := Dict.t hvalue.
Definition heap : Type := list obj.

Definition is_ref (x : hvalue) : bool :=
  match x with HRef _ => true | _ => false end.

(** A scalar on the heap as a value, and back; the merge applies neither
    to a reference or a nested record. *)
Definition scalar_value (x : hvalue) : value :=
  match x with
  | HNone | HRef _ => VNone
  | HBool b => VBool b
  | HInt z => VInt z
  | HStr s => VStr s
  end.

Definition hscalar (v : value) : hvalue :=
  match v with
  | VNone | VDict _ => HNone
  | VBool b => HBool b
  | VInt z => HInt z
  | VStr s => HStr s
  end.

(** A new object, at the next free address. *)
Definition alloc (o : obj) (h : heap) : addr * heap :=
  (List.length h, (h ++ [o])%list).

(** Overwrite the object at an address. *)
Fixpoint store (a : addr) (o : obj) (h : heap) : heap :=
  match h with
  | [] => []
  | c :: rest =>
      match a with
      | O => o :: rest
      | S a' => c :: store a' o rest
      end
  end.

(** [d[k] = x] on the object [d] refers to. *)
Definition setitem (d : addr) (k : string) (x : hvalue) (h : heap)
  : option heap :=
  match nth_error h d with
  | Some o => Some (store d (Dict.set k x o) h)
  | None => None
  end.

(** [dict(x)] of the object at [a]: a shallow copy. *)
Definition copy (a : addr) (h : heap) : option (addr * heap) :=
  match nth_error h a with
  | Some o => Some (alloc o h)
  | None => None
  end.

Section MergeLoop.
(** The recursive call on two nested records (line 57). *)
Variable merge_nested : addr -> addr -> heap -> option (addr * heap).

(** Lines 55-78: [k] is in [result], with value [rk]. *)
Definition merge_present (result : addr) (k : string) (v rk : hvalue)
    (h : heap) : option heap :=
  match v, rk with
  | HRef p, HRef q =>
      match merge_nested p q h with
      | Some (m, h') => setitem result k (HRef m) h'
      | None => None
      end
  | HRef p, _ =>
      match copy p h with
      | Some (c, h') => setitem result k (HRef c) h'
      | None => None
      end
  | _, HRef q => Some h
  | _, _ =>
      setitem result k
        (hscalar (merge_scalars (scalar_value v) (scalar_value rk))) h
  end.

(** Lines 53-81 for one item [(k, v)] of [usage_entry1]. *)
Definition merge_item (result : addr) (k : string) (v : hvalue) (h : heap)
  : option heap :=
  match nth_error h result with
  | None => None
  | Some r =>
      match Dict.get k r with
      | Some rk => merge_present result k v rk h
      | None => setitem result k v h
      end
  end.

(** Lines 52-81, over the items [usage_entry1] holds when the loop starts. *)
Fixpoint merge_loop (result : addr) (items : obj) (h : heap) : option heap :=
  match items with
  | [] => Some h
  | (k, v) :: rest =>
      match merge_item result k v h with
      | Some h' => merge_loop result rest h'
      | None => None
      end
  end.
End MergeLoop.

(** Lines 46-82 on two [dict] objects. [fuel] bounds the nesting depth the
    recursion may descend; the result is the address of the merged record
    and the heap after the call, or nothing when [fuel] is exhausted or an
    address is dangling. *)
Fixpoint _merge_usage_entries (fuel : nat) (usage_entry1 usage_entry2 : addr)
    (h : heap) {struct fuel} : option (addr * heap) :=
  match fuel with
  | O => None
  | S fuel' =>
      match nth_error h usage_entry1, nth_error h usage_entry2 with
      | Some o1, Some o2 =>
          if Dict.is_empty o1 then copy usage_entry2 h
          else if Dict.is_empty o2 then copy usage_entry1 h
          else
            let (result, h1) := alloc o2 h in
            match merge_loop (_merge_usage_entries fuel') result o1 h1 with
            | Some h' => Some (result, h')
            | None => None
            end
      | _, _ => None
      end
  end.

(** The tracker: LM name to the addresses of its stored records. *)
Record UsageTracker : Type := mkUsageTracker {
  usage_data : Dict.t (list addr)
}.

(** Lines 94-95. *)
Fixpoint merge_all (fuel : nat) (usage_entries : list addr) (total_usage : addr)
    (h : heap) : option (addr * heap) :=
  match usage_entries with
  | [] => Some (total_usage, h)
  | usage_entry :: rest =>
      match _merge_usage_entries fuel total_usage usage_entry h with
      | Some (total, h') => merge_all fuel rest total h'
      | None => None
      end
  end.

(** Lines 92-96. *)
Fixpoint totals_loop (fuel : nat) (items : Dict.t (list addr))
    (total_usage_by_lm : addr) (h : heap) : option heap :=
  match items with
  | [] => Some h
  | (lm, usage_entries) :: rest =>
      let (total_usage, h0) := alloc [] h in
      match merge_all fuel usage_entries total_usage h0 with
      | Some (total, h1) =>
          match setitem total_usage_by_lm lm (HRef total) h1 with
          | Some h2 => totals_loop fuel rest total_usage_by_lm h2
          | None => None
          end
      | None => None
      end
  end.

(** Lines 89-97: the address of [total_usage_by_lm] and the heap after. *)
Definition get_total_tokens (fuel : nat) (self : UsageTracker) (h : heap)
  : option (addr * heap) :=
  let (total_usage_by_lm, h0) := alloc [] h in
  match totals_loop fuel (usage_data self) total_usage_by_lm h0 with
  | Some h' => Some (total_usage_by_lm, h')
  | None => None
  end.

(** [get_total_tokens] called [calls] times in a row: the addresses
    returned, first call first, and the heap after the last. *)
Fixpoint repeat_get_total_tokens (calls fuel : nat) (self : UsageTracker)
    (h : heap) : option (list addr * heap) :=
  match calls with
  | O => Some ([], h)
  | S calls' =>
      match get_total_tokens fuel self h with
      | Some (total, h') =>
          match repeat_get_total_tokens calls' fuel self h' with
          | Some (totals, h'') => Some (total :: totals, h'')
          | None => None
          end
      | None => None
      end
  end.

(** *** Reading an object as a value *)

Fixpoint mapM {A B : Type} (f : A -> option B) (l : list A) : option (list B) :=
  match l with
  | [] => Some []
  | x :: rest =>
      match f x, mapM f rest with
      | Some y, Some ys => Some (y :: ys)
      | _, _ => None
      end
  end.

(** The value a heap value stands for, to nesting depth [n]. *)
Fixpoint reify (n : nat) (h : heap) (x : hvalue) {struct n} : option value :=
  match x with
  | HRef a =>
      match n with
      | O => None
      | S n' =>
          match nth_error h a with
          | Some o =>
              option_map VDict
                (mapM (fun p => option_map (pair (fst p)) (reify n' h (snd p))) o)
          | None => None
          end
      end
  | _ => Some (scalar_value x)
  end.

Definition reify_fields (n : nat) (h : heap) (o : obj) : option dict :=
  mapM (fun p => option_map (pair (fst p)) (reify n h (snd p))) o.

(** The record stored at an address. *)
Definition reify_dict (n : nat) (h : heap) (a : addr) : option dict :=
  match reify n h (HRef a) with
  | Some (VDict d) => Some d
  | _ => None
  end.

(** The store of a tracker, as the value-level tracker has it. *)
Definition reify_store (n : nat) (h : heap) (data : Dict.t (list addr))
  : option (Dict.t (list dict)) :=
  mapM (fun p => option_map (pair (fst p)) (mapM (reify_dict n h) (snd p))) data.

(** A mapping from LM name to record, as a nested record. *)
Definition wrap (totals : Dict.t dict) : dict :=
  map (fun p => (fst p, VDict (snd p))) totals.

(** The totals of the value-level tracker, as a value. *)
Definition totals_value (totals : Dict.t dict) : value := VDict (wrap totals).

(** *** Heaps: cells, references, and what a call may change *)

(** Some object of the heap holds a reference to [x]. *)
Definition referenced (h : heap) (x : addr) : Prop :=
  exists a o k, nth_error h a = Some o /\ In (k, HRef x) o.

(** Every reference held by an object of the heap is to an object of the
    heap. *)
Definition closed (h : heap) : Prop :=
  forall x, referenced h x -> (x < List.length h)%nat.

(** Every object of [h] is an object of [h'], at the same address and with
    the same fields. *)
Definition extends (h h' : heap) : Prop :=
  forall a o, nth_error h a = Some o -> nth_error h' a = Some o.

(** The same, but for the object at [r]. *)
Definition same_but (r : addr) (h h' : heap) : Prop :=
  forall a o, a <> r -> nth_error h a = Some o -> nth_error h' a = Some o.

(** From [h] to [h'] only the object at [r] was written, objects were only
    added, and a reference held in [h'] is one held in [h], or to an added
    object, or one of [extra]. *)
Definition changes (r : addr) (extra : addr -> Prop) (h h' : heap) : Prop :=
  same_but r h h'
  /\ (List.length h <= List.length h')%nat
  /\ forall x, referenced h' x ->
       referenced h x \/ (List.length h <= x < List.length h')%nat \/ extra x.

Definition no_extra : addr -> Prop := fun _ => False.

(** What a merge of two records at depth [n] owes its caller: with the
    heap closed and both records readable, it returns a new object, changes
    no object that existed, leaves its result unreferenced, and the result
    reads as the value-level merge of the two records. *)
Definition merge_spec (n : nat)
    (merge : addr -> addr -> heap -> option (addr * heap)) : Prop :=
  forall a1 a2 h d1 d2,
    closed h ->
    reify n h (HRef a1) = Some (VDict d1) ->
    reify n h (HRef a2) = Some (VDict d2) ->
    exists h',
      merge a1 a2 h = Some (List.length h, h')
      /\ changes (List.length h) no_extra h h'
      /\ ~ referenced h' (List.length h)
      /\ reify n h' (HRef (List.length h))
         = Some (VDict (merge_dicts merge_values d1 d2)).

(** What the value-level loop stores for one item. *)
Definition merged_field (k : string) (vv : value) (d_res : dict) : dict :=
  match Dict.get k d_res with
  | Some rk => Dict.set k (merge_values vv rk) d_res
  | None => Dict.set k vv d_res
  end.

(** A decidable check that a heap is closed. *)
Definition closedb (h : heap) : bool :=
  forallb
    (fun o : obj =>
       forallb (fun p => match snd p with
                         | HRef x => (x <? List.length h)%nat
                         | _ => true
                         end) o) h.

(** *** Recording a record that the caller still holds *)

(** [bool(x)] of a heap value. *)
Definition truthy_at (h : heap) (x : hvalue) : option bool :=
  match x with
  | HRef a =>
      match nth_error h a with
      | Some o => Some (negb (Dict.is_empty o))
      | None => None
      end
  | _ => Some (truthy (scalar_value x))
  end.

(** Lines 26-29 for one detail field of the object [result]: a truthy
    nested record is replaced by a copy of it; [dict] of a truthy scalar
    raises. *)
Definition copy_details (field : string) (result : addr) (h : heap)
  : option (may_raise unit * heap) :=
  match nth_error h result with
  | None => None
  | Some r =>
      match Dict.get field r with
      | None => Some (Ok tt, h)
      | Some details =>
          match truthy_at h details with
          | None => None
          | Some false => Some (Ok tt, h)
          | Some true =>
              match details with
              | HRef p =>
                  match copy p h with
                  | Some (c, h') =>
                      option_map (pair (Ok tt)) (setitem result field (HRef c) h')
                  | None => None
                  end
              | _ =>
                  match py_dict (scalar_value details) with
                  | Raise e => Some (Raise e, h)
                  | Ok _ =>
                      let (c, h') := alloc [] h in
                      option_map (pair (Ok tt)) (setitem result field (HRef c) h')
                  end
              end
          end
      end
  end.

(** Lines 23-30: the address of the normalized copy, or the exception. *)
Definition _flatten_usage_entry (usage_entry : addr) (h : heap)
  : option (may_raise addr * heap) :=
  match copy usage_entry h with
  | None => None
  | Some (result, h1) =>
      match copy_details "completion_tokens_details" result h1 with
      | None => None
      | Some (Raise e, h2) => Some (Raise e, h2)
      | Some (Ok _, h2) =>
          match copy_details "prompt_tokens_details" result h2 with
          | None => None
          | Some (Raise e, h3) => Some (Raise e, h3)
          | Some (Ok _, h3) => Some (Ok result, h3)
          end
      end
  end.

(** [data[lm]] on the [defaultdict(list)] of addresses. *)
Definition defaultdict_getitem (lm : string) (data : Dict.t (list addr))
  : list addr * Dict.t (list addr) :=
  match Dict.get lm data with
  | Some entries => (entries, data)
  | None => ([], Dict.set lm [] data)
  end.

(** Lines 84-87, the record given by its address. *)
Definition add_usage (lm : string) (usage_entry : addr) (self : UsageTracker)
    (h : heap) : option ((UsageTracker * heap) * may_raise unit) :=
  match nth_error h usage_entry with
  | None => None
  | Some o =>
      if (0 <? List.length o)%nat then
        let (entries, data) := defaultdict_getitem lm (usage_data self) in
        match _flatten_usage_entry usage_entry h with
        | None => None
        | Some (Ok entry, h') =>
            Some ((mkUsageTracker (Dict.set lm (entries ++ [entry])%list data), h'),
                  Ok tt)
        | Some (Raise e, h') => Some ((mkUsageTracker data, h'), Raise e)
        end
      else Some ((self, h), Ok tt)
  end.

(** Object [u] holds a reference to [r]. *)
Definition holds (h : heap) (u r : addr) : Prop :=
  exists o k, nth_error h u = Some o /\ In (k, HRef r) o.

End Heap.

(** ** Vocabulary of the properties *)

(** What one iteration stores at the key it handles. *)
Definition merged_at (on_both : value -> value -> value) (v : value)
    (old : option value) : value :=
  match old with
  | Some rk => on_both v rk
  | None => v
  end.

(** A scalar is anything but a nested record. *)
Definition is_scalar (v : value) : bool := negb (is_dict v).

(** The total of one LM's entries, as [get_total_tokens] folds them. *)
Definition total_of (usage_entries : list dict) : dict :=
  fold_left (merge_dicts merge_values) usage_entries [].

Definition totals_of (items : Dict.t (list dict)) (acc : Dict.t dict)
  : Dict.t dict :=
  fold_left (fun acc p => Dict.set (fst p) (total_of (snd p)) acc) items acc.

(** Every record of every stored sequence has at least one field. *)
Definition no_empty_record (self : UsageTracker) : Prop :=
  Forall (fun p => Forall (fun e : dict => e <> []) (snd p)) (usage_data self).

(** The calls made for one model. *)
Definition calls_for (lm : string) (calls : list (string * dict))
  : list (string * dict) :=
  filter (fun c => String.eqb (fst c) lm) calls.

(** A reserved detail field is harmless when it is absent, falsy or a nested
    record. *)
Definition details_ok (field : string) (usage_entry : dict) : bool :=
  match Dict.get field usage_entry with
  | Some details => negb (truthy details) || is_dict details
  | None => true
  end.

(** An integer that is not a boolean, or [None]. *)
Definition int_or_none (v : value) : bool :=
  match v with
  | VInt _ | VNone => true
  | _ => false
  end.

(** The number a scalar counts for in a sum: [None] is 0. *)
Definition num (v : value) : Z :=
  match v with
  | VInt z => z
  | _ => 0
  end.

(** Record [e] holds an integer or [None] at [k]. *)
Definition int_or_none_at (k : string) (e : dict) : bool :=
  match Dict.get k e with
  | Some v => int_or_none v
  | None => false
  end.

Definition field_num (k : string) (e : dict) : Z :=
  match Dict.get k e with
  | Some v => num v
  | None => 0
  end.

(** The arithmetic sum of field [k] over the records. *)
Definition field_sum (k : string) (usage_entries : list dict) : Z :=
  fold_right Z.add 0 (map (field_num k) usage_entries).

(** The keys of a dictionary, in insertion order. *)
Definition keys_of {V : Type} (d : Dict.t V) : list string := map fst d.

(** The keys of [a] that [b] does not hold, in [a]'s order. *)
Definition new_keys {V W : Type} (a : Dict.t V) (b : Dict.t W) : list string :=
  filter (fun k => negb (Dict.mem k b)) (keys_of a).

(** A call that stores its record: the record has a field and both
    reserved detail fields are harmless. *)
Definition stores_record (c : string * dict) : bool :=
  negb (Dict.is_empty (snd c))
  && details_ok "completion_tokens_details" (snd c)
  && details_ok "prompt_tokens_details" (snd c).

(** The calls for [lm] that reach line 87: their record has a field. *)
Definition reaches_append (lm : string) (c : string * dict) : bool :=
  String.eqb (fst c) lm && negb (Dict.is_empty (snd c)).

(** The records the calls store for [lm], in call order. *)
Definition stored_for (lm : string) (calls : list (string * dict)) : list dict :=
  map snd (filter (fun c => String.eqb (fst c) lm && stores_record c) calls).

(** ** Facts about ordered dictionaries *)

Section DictFacts.
Variable V : Type.
Implicit Types (d : Dict.t V) (k : string) (v : V).

Lemma get_set_eq k v d : Dict.get k (Dict.set k v d) = Some v.
Proof.
  induction d as [|[k' v'] rest IH]; simpl.
  - now rewrite String.eqb_refl.
  - destruct (String.eqb k k') eqn:E; simpl; rewrite E; auto.
Qed.

Lemma get_set_neq k k' v d :
  k <> k' -> Dict.get k (Dict.set k' v d) = Dict.get k d.
Proof.
  intros Hne. induction d as [|[k0 v0] rest IH]; simpl.
  - destruct (String.eqb_spec k k'); congruence.
  - destruct (String.eqb_spec k' k0) as [->|Hk0]; simpl.
    + destruct (String.eqb_spec k k0); congruence.
    + now rewrite IH.
Qed.

Lemma set_same k v d : Dict.get k d = Some v -> Dict.set k v d = d.
Proof.
  induction d as [|[k0 v0] rest IH]; simpl; [discriminate|].
  destruct (String.eqb_spec k k0) as [->|Hk0].
  - now intros [= ->].
  - intros H. now rewrite IH.
Qed.

Lemma mem_set k k' v d :
  Dict.mem k (Dict.set k' v d) = (String.eqb k k' || Dict.mem k d)%bool.
Proof.
  unfold Dict.mem. destruct (String.eqb_spec k k') as [->|Hne]; simpl.
  - now rewrite get_set_eq.
  - now rewrite get_set_neq.
Qed.

Lemma unique_keys_set k v d :
  Dict.unique_keys d = true -> Dict.unique_keys (Dict.set k v d) = true.
Proof.
  induction d as [|[k0 v0] rest IH]; simpl; [reflexivity|].
  intros H. apply andb_true_iff in H as [Hk0 Hrest].
  destruct (String.eqb_spec k k0) as [->|Hne]; simpl.
  - now rewrite Hk0, Hrest.
  - rewrite mem_set, IH by assumption.
    destruct (String.eqb_spec k0 k); [congruence|].
    simpl. now rewrite Hk0.
Qed.
End DictFacts.

(** ** The merge loop, key by key *)

Section MergeLoopFacts.
Variable on_both : value -> value -> value.

Lemma merge_loop_absent k items result :
  Dict.get k items = None ->
  Dict.get k (merge_loop on_both items result) = Dict.get k result.
Proof.
  revert result. induction items as [|[k0 v0] rest IH]; intros result; simpl.
  - reflexivity.
  - destruct (String.eqb_spec k k0) as [->|Hne]; [discriminate|].
    intros Hrest. rewrite IH by assumption.
    destruct (Dict.get k0 result); now rewrite get_set_neq.
Qed.

Lemma merge_loop_present k v items result :
  Dict.unique_keys items = true ->
  Dict.get k items = Some v ->
  Dict.get k (merge_loop on_both items result)
  = Some (merged_at on_both v (Dict.get k result)).
Proof.
  revert result. induction items as [|[k0 v0] rest IH]; intros result; simpl.
  - discriminate.
  - intros Huniq. apply andb_true_iff in Huniq as [Hk0 Hrest].
    destruct (String.eqb_spec k k0) as [->|Hne].
    + intros [= ->]. rewrite merge_loop_absent.
      * destruct (Dict.get k0 result); simpl; now rewrite get_set_eq.
      * unfold Dict.mem in Hk0. now destruct (Dict.get k0 rest).
    + intros Hget. rewrite (IH _ Hrest Hget). f_equal. f_equal.
      destruct (Dict.get k0 result); now rewrite get_set_neq.
Qed.
End MergeLoopFacts.

Lemma merge_two_dicts (a b : dict) :
  _merge_usage_entries (Some a) (Some b) = Ok (merge_dicts merge_values a b).
Proof. now destruct a, b. Qed.

Lemma merge_two_nonempty (a b : dict) :
  a <> [] -> b <> [] ->
  _merge_usage_entries (Some a) (Some b) = Ok (merge_loop merge_values a b).
Proof. destruct a, b; intros Ha Hb; try reflexivity; congruence. Qed.

Lemma get_some_nonempty (V : Type) k (v : V) (d : Dict.t V) :
  Dict.get k d = Some v -> d <> [].
Proof. destruct d; simpl; congruence. Qed.

(** A key present on both sides of a merge of two records. *)
Lemma merge_shared_key k va vb (a b : dict) :
  Dict.unique_keys a = true ->
  Dict.get k a = Some va ->
  Dict.get k b = Some vb ->
  exists r, _merge_usage_entries (Some a) (Some b) = Ok r
            /\ Dict.get k r = Some (merge_values va vb).
Proof.
  intros Hu Ha Hb. eexists. split.
  - apply merge_two_nonempty; eapply get_some_nonempty; eassumption.
  - rewrite (@merge_loop_present merge_values k va a b Hu Ha), Hb. reflexivity.
Qed.

(** ** Structure preference (C2) *)

(** C2: when exactly one of the two records holds a nested record at [k] and
    the other a scalar, the merge holds that nested record at [k], whichever
    argument it came from. *)
Theorem nested_record_beats_scalar k d s (a b : dict) :
  Dict.unique_keys a = true ->
  is_scalar s = true ->
  (Dict.get k a = Some (VDict d) /\ Dict.get k b = Some s) \/
  (Dict.get k a = Some s /\ Dict.get k b = Some (VDict d)) ->
  exists r, _merge_usage_entries (Some a) (Some b) = Ok r
            /\ Dict.get k r = Some (VDict d).
Proof.
  intros Hu Hs [[Ha Hb]|[Ha Hb]];
    destruct (@merge_shared_key k _ _ a b Hu Ha Hb) as (r & Hr & Hk);
    exists r; (split; [exact Hr|]); rewrite Hk;
    destruct s; simpl in *; try reflexivity; discriminate.
Qed.

Example nested_record_beats_scalar_witness :
  exists r,
    _merge_usage_entries
      (Some [("prompt_tokens", VInt 200); ("nested_field", VInt 30)])
      (Some [("prompt_tokens", VInt 100);
             ("nested_field", VDict [("subfield1", VInt 10); ("subfield2", VInt 20)])])
    = Ok r
    /\ Dict.get "nested_field" r
       = Some (VDict [("subfield1", VInt 10); ("subfield2", VInt 20)]).
Proof.
  apply (@nested_record_beats_scalar "nested_field" _ (VInt 30)).
  - reflexivity.
  - reflexivity.
  - right. split; reflexivity.
Defined.

(** ** The fallback when addition raises (C3) *)

(** When [result_value + v_value] raises, the merged value is
    [result_value]: the second record's value, with [None] read as 0. *)
Lemma merge_scalars_fallback v rk e :
  is_bool v = false -> is_bool rk = false ->
  py_add (or_zero rk) (or_zero v) = Raise e ->
  merge_scalars v rk = or_zero rk.
Proof.
  intros Hv Hrk Hadd. unfold merge_scalars. rewrite Hv, Hrk, Hadd. simpl.
  now destruct rk.
Qed.

(** C3: merging a record holding text at [k] into a record holding [None]
    at [k] stores 0 at [k], not the text: [result_value] has already been
    replaced by 0 when the fallback tests it against [None]. *)
Theorem fallback_drops_text_for_zero :
  py_add (or_zero VNone) (or_zero (VStr "x")) = Raise TypeError
  /\ exists r,
       _merge_usage_entries (Some [("k", VStr "x")]) (Some [("k", VNone)])
       = Ok r
       /\ Dict.get "k" r = Some (VInt 0)
       /\ Dict.get "k" r <> Some (VStr "x").
Proof.
  split; [reflexivity|]. exists [("k", VInt 0)].
  repeat split; discriminate.
Qed.

(** ** Two strings concatenate (C10) *)

Lemma string_length_append (s1 s2 : string) :
  String.length (s1 ++ s2) = (String.length s1 + String.length s2)%nat.
Proof. induction s1; simpl; auto. Qed.

Lemma string_length_zero (s : string) : String.length s = 0%nat -> s = "".
Proof. destruct s; simpl; [reflexivity|discriminate]. Qed.

(** C10: two strings at a shared key are concatenated, the second record's
    first; with both non-empty the result is neither of them. *)
Theorem strings_at_shared_key_concatenate k sa sb (a b : dict) :
  Dict.unique_keys a = true ->
  Dict.get k a = Some (VStr sa) ->
  Dict.get k b = Some (VStr sb) ->
  exists r, _merge_usage_entries (Some a) (Some b) = Ok r
            /\ Dict.get k r = Some (VStr (sb ++ sa))
            /\ py_add (VStr sb) (VStr sa) = Ok (VStr (sb ++ sa))
            /\ (sa <> "" -> sb <> "" ->
                Dict.get k r <> Dict.get k a /\ Dict.get k r <> Dict.get k b).
Proof.
  intros Hu Ha Hb.
  destruct (@merge_shared_key k _ _ a b Hu Ha Hb) as (r & Hr & Hk).
  exists r. simpl in Hk.
  split; [exact Hr|]. split; [exact Hk|]. split; [reflexivity|].
  intros Hsa Hsb. rewrite Hk, Ha, Hb.
  split; intros [= Heq]; apply (f_equal String.length) in Heq;
    rewrite string_length_append in Heq.
  - apply Hsb, string_length_zero. lia.
  - apply Hsa, string_length_zero. lia.
Qed.

Example strings_at_shared_key_concatenate_witness :
  exists r,
    _merge_usage_entries
      (Some [("prompt_tokens", VInt 100); ("string_value", VStr "test")])
      (Some [("string_value", VStr "another")]) = Ok r
    /\ Dict.get "string_value" r = Some (VStr "anothertest")
    /\ py_add (VStr "another") (VStr "test") = Ok (VStr "anothertest")
    /\ ("test" <> "" -> "another" <> "" ->
        Dict.get "string_value" r
        <> Dict.get "string_value"
             [("prompt_tokens", VInt 100); ("string_value", VStr "test")]
        /\ Dict.get "string_value" r
           <> Dict.get "string_value" [("string_value", VStr "another")]).
Proof.
  apply (@strings_at_shared_key_concatenate "string_value" "test" "another");
    reflexivity.
Defined.

(** ** The empty record is an identity (C6) *)

Lemma copy_details_same field (r r' : dict) :
  copy_details field r = Ok r' -> r' = r.
Proof.
  unfold copy_details. destruct (Dict.get field r) as [details|] eqn:Hget.
  - destruct (truthy details) eqn:Ht.
    + destruct details as [| | |s|d]; simpl; try discriminate.
      * simpl in Ht. destruct (String.eqb s ""); discriminate.
      * intros [= <-]. now apply set_same.
    + now intros [= <-].
  - now intros [= <-].
Qed.

(** A normalized copy has the fields and values of the record it copies. *)
Lemma flatten_same (x y : dict) : _flatten_usage_entry x = Ok y -> y = x.
Proof.
  unfold _flatten_usage_entry.
  destruct (copy_details "completion_tokens_details" x) as [r|] eqn:H1;
    simpl; [|discriminate].
  intros H2. apply copy_details_same in H1, H2. congruence.
Qed.

(** C6: merging a non-empty record with an empty or absent one, on either
    side, returns the record; a normalized copy of it is that same record. *)
Theorem empty_record_is_identity (x : dict) :
  x <> [] ->
  _merge_usage_entries (Some x) (Some []) = Ok x
  /\ _merge_usage_entries (Some []) (Some x) = Ok x
  /\ _merge_usage_entries (Some x) None = Ok x
  /\ _merge_usage_entries None (Some x) = Ok x
  /\ (forall y, _flatten_usage_entry x = Ok y ->
        _merge_usage_entries (Some x) (Some []) = Ok y
        /\ _merge_usage_entries (Some []) (Some x) = Ok y).
Proof.
  intros Hx.
  assert (H1 : _merge_usage_entries (Some x) (Some []) = Ok x)
    by (destruct x; [congruence|reflexivity]).
  assert (H2 : _merge_usage_entries (Some []) (Some x) = Ok x) by reflexivity.
  split; [exact H1|]. split; [exact H2|].
  split; [destruct x; [congruence|reflexivity]|].
  split; [reflexivity|].
  intros y Hy. apply flatten_same in Hy. now subst.
Qed.

Example empty_record_is_identity_witness :
  let x := [("prompt_tokens", VInt 100);
            ("prompt_tokens_details", VDict [("cached_tokens", VInt 7)])] in
  _merge_usage_entries (Some x) (Some []) = Ok x
  /\ _merge_usage_entries (Some []) (Some x) = Ok x
  /\ _merge_usage_entries (Some x) None = Ok x
  /\ _merge_usage_entries None (Some x) = Ok x
  /\ (forall y, _flatten_usage_entry x = Ok y ->
        _merge_usage_entries (Some x) (Some []) = Ok y
        /\ _merge_usage_entries (Some []) (Some x) = Ok y).
Proof. intro x. apply empty_record_is_identity. discriminate. Defined.

(** ** Totals as folds *)

Lemma merge_all_ok usage_entries total_usage :
  merge_all usage_entries total_usage
  = Ok (fold_left (merge_dicts merge_values) usage_entries total_usage).
Proof.
  revert total_usage. induction usage_entries as [|e rest IH]; intros t; simpl.
  - reflexivity.
  - rewrite merge_two_dicts. simpl. apply IH.
Qed.

Lemma totals_loop_ok items acc : totals_loop items acc = Ok (totals_of items acc).
Proof.
  revert acc. induction items as [|[lm es] rest IH]; intros acc; simpl.
  - reflexivity.
  - rewrite merge_all_ok. simpl. apply IH.
Qed.

Lemma get_total_tokens_ok self :
  get_total_tokens self = Ok (totals_of (usage_data self) []).
Proof. apply totals_loop_ok. Qed.

Lemma totals_of_absent lm items acc :
  Dict.get lm items = None ->
  Dict.get lm (totals_of items acc) = Dict.get lm acc.
Proof.
  revert acc. induction items as [|[k es] rest IH]; intros acc; simpl.
  - reflexivity.
  - destruct (String.eqb_spec lm k) as [->|Hne]; [discriminate|].
    intros Hrest. unfold totals_of in IH. rewrite IH by assumption.
    now apply get_set_neq.
Qed.

Lemma totals_of_present lm es items acc :
  Dict.unique_keys items = true ->
  Dict.get lm items = Some es ->
  Dict.get lm (totals_of items acc) = Some (total_of es).
Proof.
  revert acc. induction items as [|[k es0] rest IH]; intros acc; simpl.
  - discriminate.
  - intros Hu. apply andb_true_iff in Hu as [Hk Hrest].
    destruct (String.eqb_spec lm k) as [->|Hne].
    + intros [= ->]. fold (totals_of rest (Dict.set k (total_of es) acc)).
      rewrite totals_of_absent.
      * apply get_set_eq.
      * unfold Dict.mem in Hk. now destruct (Dict.get k rest).
    + intros Hget. now apply IH.
Qed.

(** The totals hold an LM exactly when the store does. *)
Lemma totals_lookup lm self :
  Dict.unique_keys (usage_data self) = true ->
  Dict.get lm (totals_of (usage_data self) [])
  = option_map total_of (Dict.get lm (usage_data self)).
Proof.
  intros Hu. destruct (Dict.get lm (usage_data self)) as [es|] eqn:Hget; simpl.
  - now apply totals_of_present.
  - now rewrite totals_of_absent.
Qed.

(** ** Stores built by [add_usage] *)

Lemma defaultdict_getitem_unique lm data :
  Dict.unique_keys data = true ->
  Dict.unique_keys (snd (defaultdict_getitem lm data)) = true.
Proof.
  intros Hu. unfold defaultdict_getitem.
  destruct (Dict.get lm data); simpl; [assumption|now apply unique_keys_set].
Qed.

Lemma add_usage_unique lm usage_entry self :
  Dict.unique_keys (usage_data self) = true ->
  Dict.unique_keys (usage_data (fst (add_usage lm usage_entry self))) = true.
Proof.
  intros Hu. unfold add_usage.
  destruct (0 <? List.length usage_entry)%nat; [|assumption].
  pose proof (defaultdict_getitem_unique lm _ Hu) as Hd.
  destruct (defaultdict_getitem lm (usage_data self)) as [entries data].
  simpl in Hd.
  destruct (_flatten_usage_entry usage_entry); simpl;
    [now apply unique_keys_set|assumption].
Qed.

Lemma add_usages_unique calls self :
  Dict.unique_keys (usage_data self) = true ->
  Dict.unique_keys (usage_data (add_usages calls self)) = true.
Proof.
  revert self. induction calls as [|[lm e] rest IH]; intros self Hu; simpl.
  - assumption.
  - apply IH. now apply add_usage_unique.
Qed.

(** ** Empty records are never stored (C5) *)

Section ValuesOfDict.
Variable V : Type.
Variable P : V -> Prop.

Lemma Forall_values_set k v (d : Dict.t V) :
  P v -> Forall (fun p => P (snd p)) d ->
  Forall (fun p => P (snd p)) (Dict.set k v d).
Proof.
  intros Hv. induction d as [|[k0 v0] rest IH]; simpl; intros Hd.
  - now repeat constructor.
  - inversion Hd; subst. destruct (String.eqb k k0); constructor; auto.
Qed.

Lemma Forall_values_get k v (d : Dict.t V) :
  Forall (fun p => P (snd p)) d -> Dict.get k d = Some v -> P v.
Proof.
  induction d as [|[k0 v0] rest IH]; simpl; intros Hd; [discriminate|].
  inversion Hd; subst. destruct (String.eqb k k0); [now intros [= <-]|auto].
Qed.
End ValuesOfDict.

Lemma add_usage_no_empty_record lm usage_entry self :
  no_empty_record self ->
  no_empty_record (fst (add_usage lm usage_entry self)).
Proof.
  unfold no_empty_record, add_usage. intros Hinv.
  destruct usage_entry as [|f fs]; [assumption|]. simpl Nat.ltb. cbv iota.
  set (e := f :: fs).
  assert (Hd : Forall (fun p => Forall (fun e : dict => e <> []) (snd p))
                 (snd (defaultdict_getitem lm (usage_data self)))
               /\ Forall (fun e : dict => e <> [])
                    (fst (defaultdict_getitem lm (usage_data self)))).
  { unfold defaultdict_getitem.
    destruct (Dict.get lm (usage_data self)) as [es|] eqn:Hget; simpl.
    - split; [assumption|].
      exact (Forall_values_get _ _ _ _ _ Hinv Hget).
    - split; [|constructor].
      apply (Forall_values_set _ (fun es => Forall (fun e : dict => e <> []) es));
        [constructor|assumption]. }
  destruct (defaultdict_getitem lm (usage_data self)) as [entries data].
  destruct Hd as [Hdata Hentries]. simpl in Hdata, Hentries.
  destruct (_flatten_usage_entry e) as [entry|] eqn:Hflat; simpl.
  - apply (Forall_values_set _ (fun es => Forall (fun e : dict => e <> []) es));
      [|assumption].
    apply Forall_app. split; [assumption|].
    constructor; [|constructor].
    apply flatten_same in Hflat. subst entry. discriminate.
  - assumption.
Qed.

Lemma add_usages_no_empty_record calls self :
  no_empty_record self -> no_empty_record (add_usages calls self).
Proof.
  revert self. induction calls as [|[lm e] rest IH]; intros self Hinv; simpl.
  - assumption.
  - apply IH. now apply add_usage_no_empty_record.
Qed.

(** C5: adding an empty record changes nothing, so it creates no sequence
    for an unseen model; and whatever calls a fresh tracker receives, no
    sequence it stores holds an empty record. *)
Theorem empty_records_are_never_stored :
  (forall lm self, add_usage lm [] self = (self, Ok tt))
  /\ (forall lm self,
        Dict.mem lm (usage_data (fst (add_usage lm [] self)))
        = Dict.mem lm (usage_data self))
  /\ (forall calls, no_empty_record (add_usages calls new_tracker))
  /\ (forall calls lm usage_entries,
        Dict.get lm (usage_data (add_usages calls new_tracker))
        = Some usage_entries ->
        ~ In [] usage_entries).
Proof.
  split; [reflexivity|]. split; [reflexivity|].
  assert (Hall : forall calls, no_empty_record (add_usages calls new_tracker)).
  { intros calls. apply add_usages_no_empty_record. constructor. }
  split; [exact Hall|].
  intros calls lm es Hget Hin.
  pose proof (Forall_values_get _ (fun es => Forall (fun e : dict => e <> []) es)
                lm _ _ (Hall calls) Hget) as Hes.
  rewrite Forall_forall in Hes. now apply (Hes [] Hin).
Qed.

(** ** Models do not interfere (C7) *)

Lemma add_usage_other_model lm lm' usage_entry self :
  lm <> lm' ->
  Dict.get lm (usage_data (fst (add_usage lm' usage_entry self)))
  = Dict.get lm (usage_data self).
Proof.
  intros Hne. unfold add_usage, defaultdict_getitem.
  destruct (0 <? List.length usage_entry)%nat; [|reflexivity].
  destruct (Dict.get lm' (usage_data self));
    destruct (_flatten_usage_entry usage_entry); simpl;
    rewrite ?get_set_neq by assumption; reflexivity.
Qed.

Lemma add_usage_same_model lm usage_entry self1 self2 :
  Dict.get lm (usage_data self1) = Dict.get lm (usage_data self2) ->
  Dict.get lm (usage_data (fst (add_usage lm usage_entry self1)))
  = Dict.get lm (usage_data (fst (add_usage lm usage_entry self2))).
Proof.
  intros Heq. unfold add_usage, defaultdict_getitem.
  destruct (0 <? List.length usage_entry)%nat; [|assumption].
  rewrite <- Heq.
  destruct (Dict.get lm (usage_data self1)) as [es|] eqn:H1;
    destruct (_flatten_usage_entry usage_entry); simpl;
    rewrite ?get_set_eq; auto; congruence.
Qed.

Lemma add_usages_same_calls lm calls self1 self2 :
  Dict.get lm (usage_data self1) = Dict.get lm (usage_data self2) ->
  Dict.get lm (usage_data (add_usages (calls_for lm calls) self1))
  = Dict.get lm (usage_data (add_usages calls self2)).
Proof.
  revert self1 self2.
  induction calls as [|[lm' e] rest IH]; intros self1 self2 Heq; simpl.
  - assumption.
  - destruct (String.eqb_spec lm' lm) as [->|Hne]; simpl.
    + apply IH. now apply add_usage_same_model.
    + apply IH. rewrite add_usage_other_model by congruence. assumption.
Qed.

(** The sequence stored for a model depends on the calls for that model
    only. *)
Lemma stored_sequence_isolated lm calls1 calls2 :
  calls_for lm calls1 = calls_for lm calls2 ->
  Dict.get lm (usage_data (add_usages calls1 new_tracker))
  = Dict.get lm (usage_data (add_usages calls2 new_tracker)).
Proof.
  intros Heq.
  rewrite <- (add_usages_same_calls lm calls1 new_tracker new_tracker eq_refl).
  rewrite <- (add_usages_same_calls lm calls2 new_tracker new_tracker eq_refl).
  now rewrite Heq.
Qed.

(** C7: two trackers that received the same calls for model [lm] report the
    same total for [lm] (or both none), whatever they received for other
    models. *)
Theorem totals_of_a_model_are_isolated lm calls1 calls2 :
  calls_for lm calls1 = calls_for lm calls2 ->
  exists totals1 totals2,
    get_total_tokens (add_usages calls1 new_tracker) = Ok totals1
    /\ get_total_tokens (add_usages calls2 new_tracker) = Ok totals2
    /\ Dict.get lm totals1 = Dict.get lm totals2.
Proof.
  intros Heq. do 2 eexists.
  split; [apply get_total_tokens_ok|]. split; [apply get_total_tokens_ok|].
  rewrite !totals_lookup by (apply add_usages_unique; reflexivity).
  now rewrite (stored_sequence_isolated lm calls1 calls2 Heq).
Qed.

Example totals_of_a_model_are_isolated_witness :
  exists totals1 totals2,
    get_total_tokens
      (add_usages [("A", [("total_tokens", VInt 1163)]);
                   ("B", [("total_tokens", VInt 900)]);
                   ("A", [("total_tokens", VStr "n/a")]);
                   ("B", [("total_tokens", VInt 580)])] new_tracker)
    = Ok totals1
    /\ get_total_tokens
         (add_usages [("B", [("total_tokens", VInt 900)]);
                      ("B", [("total_tokens", VInt 580)]);
                      ("C", [("prompt_tokens_details", VInt 5)])] new_tracker)
       = Ok totals2
    /\ Dict.get "B" totals1 = Dict.get "B" totals2.
Proof. apply (totals_of_a_model_are_isolated "B"). reflexivity. Defined.

(** ** What raises and what does not (C9) *)

Lemma copy_details_ok_iff field (r : dict) :
  copy_details field r = Ok r <-> details_ok field r = true.
Proof.
  unfold copy_details, details_ok.
  destruct (Dict.get field r) as [details|] eqn:Hget; [|tauto].
  destruct (truthy details) eqn:Ht; simpl; [|tauto].
  destruct details as [| |z|s|d]; simpl in *; try (split; discriminate).
  - destruct (String.eqb s ""); [discriminate|split; discriminate].
  - rewrite (set_same _ _ _ _ Hget). tauto.
Qed.

Lemma copy_details_raises_or_same field (r : dict) :
  copy_details field r = Ok r \/ exists e, copy_details field r = Raise e.
Proof.
  destruct (copy_details field r) as [r'|e] eqn:H; [left|right; eauto].
  now rewrite (copy_details_same _ _ _ H).
Qed.

Lemma flatten_ok_iff (usage_entry : dict) :
  _flatten_usage_entry usage_entry = Ok usage_entry
  <-> details_ok "completion_tokens_details" usage_entry = true
      /\ details_ok "prompt_tokens_details" usage_entry = true.
Proof.
  rewrite <- !copy_details_ok_iff. unfold _flatten_usage_entry.
  destruct (copy_details_raises_or_same "completion_tokens_details" usage_entry)
    as [H1|[e H1]]; rewrite H1; simpl.
  - tauto.
  - split; [discriminate|intros [H _]; discriminate].
Qed.

Lemma flatten_raises_or_same (usage_entry : dict) :
  _flatten_usage_entry usage_entry = Ok usage_entry
  \/ exists e, _flatten_usage_entry usage_entry = Raise e.
Proof.
  destruct (_flatten_usage_entry usage_entry) as [r|e] eqn:H; [left|right; eauto].
  now rewrite (flatten_same _ _ H).
Qed.

Lemma add_usage_outcome lm usage_entry self :
  snd (add_usage lm usage_entry self)
  = if (0 <? List.length usage_entry)%nat
    then bind (_flatten_usage_entry usage_entry) (fun _ => Ok tt)
    else Ok tt.
Proof.
  unfold add_usage. destruct (0 <? List.length usage_entry)%nat; [|reflexivity].
  destruct (defaultdict_getitem lm (usage_data self)) as [entries data].
  now destruct (_flatten_usage_entry usage_entry).
Qed.

(** C9 as stated fails: a record whose values are integers makes
    [add_usage] raise when a reserved detail field holds a non-zero integer;
    the call leaves an empty sequence for the model behind. *)
Lemma add_usage_raises_on_scalar_details :
  add_usage "m" [("prompt_tokens", VInt 7); ("prompt_tokens_details", VInt 5)]
    new_tracker
  = (mkUsageTracker [("m", [])], Raise TypeError).
Proof. reflexivity. Qed.

(** C9, amended: merging two records and totalling a store never raise,
    a number meeting a string is absorbed by the merge, and [add_usage]
    completes normally exactly when the record is empty or each reserved
    detail field is absent, falsy or a nested record. *)
Theorem only_scalar_details_raise :
  (forall a b : dict, exists r, _merge_usage_entries (Some a) (Some b) = Ok r)
  /\ (forall self, exists totals, get_total_tokens self = Ok totals)
  /\ (forall z s,
        py_add (VInt z) (VStr s) = Raise TypeError
        /\ merge_values (VStr s) (VInt z) = VInt z
        /\ merge_values (VInt z) (VStr s) = VStr s)
  /\ (forall lm usage_entry self,
        snd (add_usage lm usage_entry self) = Ok tt
        <-> usage_entry = []
            \/ (details_ok "completion_tokens_details" usage_entry = true
                /\ details_ok "prompt_tokens_details" usage_entry = true)).
Proof.
  split; [intros a b; eexists; apply merge_two_dicts|].
  split; [intros self; eexists; apply get_total_tokens_ok|].
  split; [intros z s; repeat split|].
  intros lm e self. rewrite add_usage_outcome, <- flatten_ok_iff.
  destruct e as [|f fs]; [simpl; tauto|]. simpl Nat.ltb. cbv iota.
  destruct (flatten_raises_or_same (f :: fs)) as [H|[x H]]; rewrite H; simpl.
  - tauto.
  - split; [discriminate|intros [Hnil|Hok]; discriminate].
Qed.

(** ** Numeric additivity (C1) *)

Lemma field_sum_perm k es es' :
  Permutation es es' -> field_sum k es = field_sum k es'.
Proof.
  unfold field_sum. induction 1; simpl; lia.
Qed.

Lemma merge_values_numbers va vb :
  int_or_none va = true -> int_or_none vb = true ->
  merge_values va vb = VInt (num vb + num va).
Proof. destruct va, vb; simpl; try discriminate; reflexivity. Qed.

Lemma merge_loop_unique f items result :
  Dict.unique_keys result = true ->
  Dict.unique_keys (merge_loop f items result) = true.
Proof.
  revert result. induction items as [|[k v] rest IH]; intros result Hu; simpl.
  - assumption.
  - apply IH. destruct (Dict.get k result); now apply unique_keys_set.
Qed.

Lemma merge_dicts_unique f a b :
  Dict.unique_keys a = true -> Dict.unique_keys b = true ->
  Dict.unique_keys (merge_dicts f a b) = true.
Proof.
  intros Ha Hb. unfold merge_dicts.
  destruct (Dict.is_empty a); [assumption|].
  destruct (Dict.is_empty b); [assumption|].
  now apply merge_loop_unique.
Qed.

(** One step of the fold at a numeric field held by both sides. *)
Lemma merge_dicts_numbers k va (acc e : dict) :
  Dict.unique_keys acc = true ->
  Dict.get k acc = Some va -> int_or_none va = true ->
  int_or_none_at k e = true ->
  Dict.get k (merge_dicts merge_values acc e)
  = Some (VInt (num va + field_num k e)).
Proof.
  intros Hu Ha Hva He. unfold int_or_none_at, field_num in *.
  destruct (Dict.get k e) as [vb|] eqn:Hb; [|discriminate].
  unfold merge_dicts.
  destruct acc as [|p acc']; [discriminate|].
  destruct e as [|q e']; [discriminate|]. cbn [Dict.is_empty].
  rewrite (merge_loop_present merge_values k va _ _ Hu Ha), Hb. simpl.
  rewrite merge_values_numbers by assumption. f_equal. f_equal. lia.
Qed.

(** Folding further records into a total that holds a number at [k]. *)
Lemma fold_numbers k (es : list dict) :
  forall (acc : dict) va,
    es <> [] ->
    Dict.unique_keys acc = true ->
    Dict.get k acc = Some va -> int_or_none va = true ->
    Forall (fun e => Dict.unique_keys e = true) es ->
    Forall (fun e => int_or_none_at k e = true) es ->
    Dict.get k (fold_left (merge_dicts merge_values) es acc)
    = Some (VInt (num va + field_sum k es)).
Proof.
  induction es as [|e rest IH]; intros acc va Hne Hu Ha Hva Hues Hks.
  - congruence.
  - inversion Hues as [|? ? Hue Hurest]; subst.
    inversion Hks as [|? ? Hke Hkrest]; subst. simpl.
    pose proof (merge_dicts_numbers k va acc e Hu Ha Hva Hke) as Hstep.
    destruct rest as [|e' rest'].
    + simpl. rewrite Hstep. unfold field_sum. simpl. do 2 f_equal. lia.
    + rewrite (IH _ (VInt (num va + field_num k e))); try assumption.
      * unfold field_sum. simpl. do 2 f_equal. lia.
      * discriminate.
      * now apply merge_dicts_unique.
      * reflexivity.
Qed.

(** The total of a model's records at a field that is an integer or [None]
    in each of them. *)
Lemma total_of_numbers k (es : list dict) :
  Forall (fun e => Dict.unique_keys e = true) es ->
  Forall (fun e => int_or_none_at k e = true) es ->
  match es with
  | [] => Dict.get k (total_of es) = None
  | [e] => Dict.get k (total_of es) = Dict.get k e
  | _ => Dict.get k (total_of es) = Some (VInt (field_sum k es))
  end.
Proof.
  intros Hues Hks. destruct es as [|e1 [|e2 rest]]; try reflexivity.
  inversion Hues as [|? ? Hu1 Hurest]; subst.
  inversion Hks as [|? ? Hk1 Hkrest]; subst.
  unfold total_of.
  change (fold_left (merge_dicts merge_values) (e1 :: e2 :: rest) [])
    with (fold_left (merge_dicts merge_values) (e2 :: rest) e1).
  unfold int_or_none_at in Hk1.
  destruct (Dict.get k e1) as [v1|] eqn:H1; [|discriminate].
  rewrite (fold_numbers k (e2 :: rest) e1 v1); try assumption; [|discriminate].
  change (field_sum k (e1 :: e2 :: rest))
    with (field_num k e1 + field_sum k (e2 :: rest)).
  unfold field_num at 1. now rewrite H1.
Qed.

Lemma total_of_reading k (es : list dict) :
  Forall (fun e => Dict.unique_keys e = true) es ->
  Forall (fun e => int_or_none_at k e = true) es ->
  field_num k (total_of es) = field_sum k es.
Proof.
  intros Hues Hks. pose proof (total_of_numbers k es Hues Hks) as H.
  unfold field_num at 1. destruct es as [|e1 [|e2 rest]]; rewrite H.
  - reflexivity.
  - unfold field_sum, field_num. simpl. lia.
  - reflexivity.
Qed.

Lemma total_of_perm k (es es' : list dict) :
  Forall (fun e => Dict.unique_keys e = true) es ->
  Forall (fun e => int_or_none_at k e = true) es ->
  Permutation es es' ->
  Dict.get k (total_of es') = Dict.get k (total_of es).
Proof.
  intros Hues Hks Hperm.
  pose proof (total_of_numbers k es Hues Hks) as H.
  pose proof (total_of_numbers k es'
                (Permutation_Forall Hperm Hues) (Permutation_Forall Hperm Hks))
    as H'.
  pose proof (Permutation_length Hperm) as Hlen.
  destruct es as [|e1 [|e2 rest]].
  - apply Permutation_nil in Hperm. now subst.
  - apply Permutation_length_1_inv in Hperm. now subst.
  - destruct es' as [|e1' [|e2' rest']]; try discriminate.
    rewrite H, H'. now rewrite (field_sum_perm k _ _ Hperm).
Qed.

(** C1 as stated fails for a model with a single record: a [None] there is
    returned as [None], while the sum with [None] as 0 is the integer 0. *)
Lemma single_null_record_total_is_null :
  let self := fst (add_usage "m" [("prompt_tokens", VNone)] new_tracker) in
  usage_data self = [("m", [[("prompt_tokens", VNone)]])]
  /\ get_total_tokens self = Ok [("m", [("prompt_tokens", VNone)])]
  /\ field_sum "prompt_tokens" [[("prompt_tokens", VNone)]] = 0
  /\ Dict.get "prompt_tokens" [("prompt_tokens", VNone)] <> Some (VInt 0).
Proof. repeat split; discriminate. Qed.

(** C1, amended: at a field that every stored record of a model holds as an
    integer or [None], the total is the integer sum ([None] as 0) once two
    or more records are stored, and the single record's own value otherwise;
    read as a number it is always the sum, and it is the same for every
    order of the records. *)
Theorem numeric_totals_are_sums lm k self usage_entries :
  Dict.unique_keys (usage_data self) = true ->
  Dict.get lm (usage_data self) = Some usage_entries ->
  Forall (fun e => Dict.unique_keys e = true) usage_entries ->
  Forall (fun e => int_or_none_at k e = true) usage_entries ->
  exists totals total,
    get_total_tokens self = Ok totals
    /\ Dict.get lm totals = Some total
    /\ ((2 <= List.length usage_entries)%nat ->
        Dict.get k total = Some (VInt (field_sum k usage_entries)))
    /\ (forall e, usage_entries = [e] -> Dict.get k total = Dict.get k e)
    /\ field_num k total = field_sum k usage_entries
    /\ (forall self' usage_entries',
          Dict.unique_keys (usage_data self') = true ->
          Dict.get lm (usage_data self') = Some usage_entries' ->
          Permutation usage_entries usage_entries' ->
          exists totals' total',
            get_total_tokens self' = Ok totals'
            /\ Dict.get lm totals' = Some total'
            /\ Dict.get k total' = Dict.get k total).
Proof.
  intros Hu Hget Hues Hks.
  exists (totals_of (usage_data self) []), (total_of usage_entries).
  split; [apply get_total_tokens_ok|].
  split; [now rewrite totals_lookup, Hget|].
  pose proof (total_of_numbers k usage_entries Hues Hks) as Hnum.
  split; [|split; [|split]].
  - intros Hlen. destruct usage_entries as [|e1 [|e2 rest]]; simpl in Hlen;
      [lia|lia|exact Hnum].
  - intros e ->. exact Hnum.
  - now apply total_of_reading.
  - intros self' es' Hu' Hget' Hperm.
    exists (totals_of (usage_data self') []), (total_of es').
    split; [apply get_total_tokens_ok|].
    split; [now rewrite totals_lookup, Hget'|].
    now apply total_of_perm.
Qed.

Example numeric_totals_are_sums_witness :
  let self :=
    add_usages [("gpt-4o-mini", [("prompt_tokens", VInt 1117); ("total_tokens", VInt 1163)]);
                ("gpt-4o-mini", [("prompt_tokens", VInt 800); ("total_tokens", VNone)]);
                ("gpt-4o-mini", [("total_tokens", VInt 580); ("prompt_tokens", VInt 500)])]
      new_tracker in
  exists totals total,
    get_total_tokens self = Ok totals
    /\ Dict.get "gpt-4o-mini" totals = Some total
    /\ Dict.get "prompt_tokens" total = Some (VInt 2417).
Proof.
  intro self.
  destruct (numeric_totals_are_sums "gpt-4o-mini" "prompt_tokens" self
              [[("prompt_tokens", VInt 1117); ("total_tokens", VInt 1163)];
               [("prompt_tokens", VInt 800); ("total_tokens", VNone)];
               [("total_tokens", VInt 580); ("prompt_tokens", VInt 500)]])
    as (totals & total & Htotals & Hlm & Hsum & _).
  - reflexivity.
  - reflexivity.
  - repeat constructor.
  - repeat constructor.
  - exists totals, total. split; [exact Htotals|]. split; [exact Hlm|].
    apply Hsum. simpl. lia.
Defined.

(** ** Further properties of the merge *)

Lemma mem_merge_loop f k (items result : dict) :
  Dict.mem k (merge_loop f items result)
  = (Dict.mem k items || Dict.mem k result)%bool.
Proof.
  revert result. induction items as [|[k0 v0] rest IH]; intros result.
  - reflexivity.
  - cbn [merge_loop]. rewrite IH.
    assert (Hstep : forall x,
               Dict.mem k (Dict.set k0 x result)
               = (String.eqb k k0 || Dict.mem k result)%bool)
      by (intros x; apply mem_set).
    unfold Dict.mem at 3. cbn [Dict.get].
    destruct (Dict.get k0 result); rewrite Hstep;
      destruct (String.eqb k k0); simpl;
      fold (Dict.mem k rest); now rewrite ?orb_true_r.
Qed.

Lemma mem_merge_dicts f k (a b : dict) :
  Dict.mem k (merge_dicts f a b) = (Dict.mem k a || Dict.mem k b)%bool.
Proof.
  unfold merge_dicts. destruct a as [|p a'].
  - reflexivity.
  - destruct b as [|q b'].
    + cbn [Dict.is_empty]. now rewrite orb_false_r.
    + cbn [Dict.is_empty]. apply mem_merge_loop.
Qed.

(** X1: a merge of two records holds a key exactly when one of the two
    records holds it: no key is dropped and none is invented. *)
Theorem merge_keeps_exactly_both_key_sets (a b : dict) k :
  exists r, _merge_usage_entries (Some a) (Some b) = Ok r
            /\ Dict.mem k r = (Dict.mem k a || Dict.mem k b)%bool.
Proof.
  exists (merge_dicts merge_values a b).
  split; [apply merge_two_dicts|apply mem_merge_dicts].
Qed.

Lemma get_merge_dicts_left_only f k (a b : dict) :
  Dict.unique_keys a = true -> Dict.get k b = None ->
  Dict.get k (merge_dicts f a b) = Dict.get k a.
Proof.
  intros Hu Hb. unfold merge_dicts. destruct a as [|p a']; [exact Hb|].
  destruct b as [|q b']; [reflexivity|]. cbn [Dict.is_empty].
  destruct (Dict.get k (p :: a')) as [va|] eqn:Ha.
  - rewrite (merge_loop_present f k va _ _ Hu Ha), Hb. reflexivity.
  - now rewrite merge_loop_absent.
Qed.

Lemma get_merge_dicts_right_only f k (a b : dict) :
  Dict.get k a = None ->
  Dict.get k (merge_dicts f a b) = Dict.get k b.
Proof.
  intros Ha. unfold merge_dicts. destruct a as [|p a']; [reflexivity|].
  destruct b as [|q b']; [exact Ha|]. cbn [Dict.is_empty].
  now apply merge_loop_absent.
Qed.

(** X2: a key that only one of the two records holds keeps the value that
    record gives it. *)
Theorem one_sided_keys_are_copied (a b : dict) k :
  Dict.unique_keys a = true ->
  exists r, _merge_usage_entries (Some a) (Some b) = Ok r
            /\ (Dict.get k b = None -> Dict.get k r = Dict.get k a)
            /\ (Dict.get k a = None -> Dict.get k r = Dict.get k b).
Proof.
  intros Hu. exists (merge_dicts merge_values a b).
  split; [apply merge_two_dicts|]. split.
  - now apply get_merge_dicts_left_only.
  - apply get_merge_dicts_right_only.
Qed.

Example one_sided_keys_are_copied_witness :
  exists r,
    _merge_usage_entries
      (Some [("prompt_tokens", VInt 100); ("metadata", VDict [("model", VStr "bedrock")])])
      (Some [("prompt_tokens", VInt 150)]) = Ok r
    /\ (Dict.get "metadata" [("prompt_tokens", VInt 150)] = None ->
        Dict.get "metadata" r
        = Dict.get "metadata"
            [("prompt_tokens", VInt 100);
             ("metadata", VDict [("model", VStr "bedrock")])])
    /\ (Dict.get "metadata"
          [("prompt_tokens", VInt 100);
           ("metadata", VDict [("model", VStr "bedrock")])] = None ->
        Dict.get "metadata" r = Dict.get "metadata" [("prompt_tokens", VInt 150)]).
Proof. apply (one_sided_keys_are_copied _ _ "metadata"). reflexivity. Defined.

Lemma truthy_py_or x y : truthy (py_or x y) = (truthy x || truthy y)%bool.
Proof. unfold py_or. destruct (truthy x) eqn:Hx; [now rewrite Hx|reflexivity]. Qed.

(** X3: when a boolean meets a scalar at a shared key, the merged value is
    a boolean, true exactly when one of the two values is truthy; a number
    or text on the other side is not kept. *)
Theorem boolean_meets_scalar k va vb (a b : dict) :
  Dict.unique_keys a = true ->
  Dict.get k a = Some va -> Dict.get k b = Some vb ->
  is_scalar va = true -> is_scalar vb = true ->
  (is_bool va || is_bool vb = true)%bool ->
  exists r, _merge_usage_entries (Some a) (Some b) = Ok r
            /\ Dict.get k r = Some (VBool (truthy va || truthy vb)).
Proof.
  intros Hu Ha Hb Hsa Hsb Hbool.
  destruct (merge_shared_key k va vb a b Hu Ha Hb) as (r & Hr & Hk).
  exists r. split; [exact Hr|]. rewrite Hk. f_equal.
  assert (Hm : merge_values va vb = merge_scalars va vb)
    by (destruct va, vb; try discriminate; reflexivity).
  rewrite Hm. unfold merge_scalars. rewrite Hbool. now rewrite truthy_py_or.
Qed.

Example boolean_meets_scalar_witness :
  exists r,
    _merge_usage_entries (Some [("streaming", VBool false)])
                         (Some [("total", VInt 50); ("streaming", VInt 3)]) = Ok r
    /\ Dict.get "streaming" r = Some (VBool (truthy (VBool false) || truthy (VInt 3))).
Proof.
  apply (boolean_meets_scalar "streaming" (VBool false) (VInt 3)); reflexivity.
Defined.

(** X4: two nested records at a shared key are merged by the same method,
    the first record's nested record as first argument. *)
Theorem nested_records_merge_recursively k d1 d2 (a b : dict) :
  Dict.unique_keys a = true ->
  Dict.get k a = Some (VDict d1) -> Dict.get k b = Some (VDict d2) ->
  exists r nested,
    _merge_usage_entries (Some a) (Some b) = Ok r
    /\ _merge_usage_entries (Some d1) (Some d2) = Ok nested
    /\ Dict.get k r = Some (VDict nested).
Proof.
  intros Hu Ha Hb.
  destruct (merge_shared_key k _ _ a b Hu Ha Hb) as (r & Hr & Hk).
  exists r, (merge_dicts merge_values d1 d2).
  split; [exact Hr|]. split; [apply merge_two_dicts|exact Hk].
Qed.

Example nested_records_merge_recursively_witness :
  exists r nested,
    _merge_usage_entries
      (Some [("metadata", VDict [("model", VStr "bedrock")])])
      (Some [("metadata", VDict [("provider", VStr "aws")])]) = Ok r
    /\ _merge_usage_entries (Some [("model", VStr "bedrock")])
                            (Some [("provider", VStr "aws")]) = Ok nested
    /\ Dict.get "metadata" r = Some (VDict nested).
Proof.
  apply (nested_records_merge_recursively "metadata"); reflexivity.
Defined.

(** X5: two integers, or an integer and [None], or two [None]s at a shared
    key merge to the integer sum with [None] counting as 0; the sum does
    not depend on the order of the two records. *)
Theorem numbers_at_shared_key_add k va vb (a b : dict) :
  Dict.unique_keys a = true -> Dict.unique_keys b = true ->
  Dict.get k a = Some va -> Dict.get k b = Some vb ->
  int_or_none va = true -> int_or_none vb = true ->
  exists r r',
    _merge_usage_entries (Some a) (Some b) = Ok r
    /\ _merge_usage_entries (Some b) (Some a) = Ok r'
    /\ Dict.get k r = Some (VInt (num va + num vb))
    /\ Dict.get k r' = Dict.get k r.
Proof.
  intros Hua Hub Ha Hb Hva Hvb.
  destruct (merge_shared_key k _ _ a b Hua Ha Hb) as (r & Hr & Hk).
  destruct (merge_shared_key k _ _ b a Hub Hb Ha) as (r' & Hr' & Hk').
  exists r, r'. split; [exact Hr|]. split; [exact Hr'|].
  rewrite Hk, Hk', !merge_values_numbers by assumption.
  split; do 2 f_equal; lia.
Qed.

Example numbers_at_shared_key_add_witness :
  exists r r',
    _merge_usage_entries
      (Some [("prompt_tokens", VNone); ("completion_tokens", VInt 200)])
      (Some [("prompt_tokens", VNone); ("completion_tokens", VNone)]) = Ok r
    /\ _merge_usage_entries
         (Some [("prompt_tokens", VNone); ("completion_tokens", VNone)])
         (Some [("prompt_tokens", VNone); ("completion_tokens", VInt 200)]) = Ok r'
    /\ Dict.get "prompt_tokens" r = Some (VInt (num VNone + num VNone))
    /\ Dict.get "prompt_tokens" r' = Dict.get "prompt_tokens" r.
Proof.
  apply (numbers_at_shared_key_add "prompt_tokens" VNone VNone); reflexivity.
Defined.

(** X6: the method raises exactly when its second argument is [None] and
    its first is [None] or empty, and then it is a [TypeError]; in every
    other case it returns a record. *)
Theorem merge_raises_only_on_absent_second (e1 e2 : option dict) :
  (_merge_usage_entries e1 e2 = Raise TypeError
   <-> e2 = None /\ absent_or_empty e1 = true)
  /\ (forall e, _merge_usage_entries e1 e2 = Raise e -> e = TypeError)
  /\ ((e2 <> None \/ absent_or_empty e1 = false) ->
      exists r, _merge_usage_entries e1 e2 = Ok r).
Proof.
  unfold _merge_usage_entries.
  destruct e1 as [[|p a']|]; destruct e2 as [[|q b']|]; simpl;
    (split; [split; [try discriminate; auto|intros [H1 H2]; try discriminate; auto]
            |split; [intros e H; try discriminate H; now injection H
                    |intros [H|H]; try congruence; eauto]]).
Qed.

(** ** Insertion order *)

Section KeyOrder.
Variables V W : Type.

Lemma keys_set_present k (x : V) (d : Dict.t V) :
  Dict.mem k d = true -> keys_of (Dict.set k x d) = keys_of d.
Proof.
  unfold Dict.mem, keys_of.
  induction d as [|[k0 x0] rest IH]; simpl; [discriminate|].
  destruct (String.eqb_spec k k0) as [->|Hne]; simpl; [reflexivity|].
  intros H. now rewrite IH.
Qed.

Lemma keys_set_absent k (x : V) (d : Dict.t V) :
  Dict.mem k d = false -> keys_of (Dict.set k x d) = (keys_of d ++ [k])%list.
Proof.
  unfold Dict.mem, keys_of.
  induction d as [|[k0 x0] rest IH]; simpl; [reflexivity|].
  destruct (String.eqb_spec k k0) as [->|Hne]; simpl; [discriminate|].
  intros H. now rewrite IH.
Qed.

Lemma mem_false_not_in k (d : Dict.t W) :
  Dict.mem k d = false -> ~ In k (keys_of d).
Proof.
  unfold Dict.mem, keys_of.
  induction d as [|[k0 x0] rest IH]; simpl; [tauto|].
  destruct (String.eqb_spec k k0) as [->|Hne]; [discriminate|].
  intros H [Heq|Hin]; [congruence|now apply IH].
Qed.

(** A loop that assigns one key per item. *)
Variable step : string -> W -> Dict.t V -> Dict.t V.
Hypothesis step_sets : forall k w d, exists x, step k w d = Dict.set k x d.

Lemma keys_after_assignments (items : Dict.t W) : forall acc : Dict.t V,
  Dict.unique_keys items = true ->
  keys_of (fold_left (fun acc p => step (fst p) (snd p) acc) items acc)
  = (keys_of acc ++ new_keys items acc)%list.
Proof.
  unfold new_keys.
  induction items as [|[k0 w0] rest IH]; intros acc Hu.
  - simpl. now rewrite app_nil_r.
  - cbn [Dict.unique_keys] in Hu. apply andb_true_iff in Hu as [Hk0 Hrest].
    apply negb_true_iff in Hk0.
    cbn [fold_left fst snd]. rewrite (IH _ Hrest).
    destruct (step_sets k0 w0 acc) as [x ->].
    cbn [keys_of map fst filter]. fold (keys_of rest).
    destruct (Dict.mem k0 acc) eqn:Hmem; cbn [negb].
    + rewrite keys_set_present by assumption. f_equal.
      apply filter_ext. intros k. rewrite mem_set.
      destruct (String.eqb_spec k k0) as [->|Hne]; [now rewrite Hmem|reflexivity].
    + rewrite keys_set_absent by assumption. rewrite <- app_assoc. f_equal.
      cbn [app]. f_equal. apply filter_ext_in. intros k Hin. rewrite mem_set.
      destruct (String.eqb_spec k k0) as [->|Hne]; [|reflexivity].
      now apply mem_false_not_in in Hk0.
Qed.
End KeyOrder.

Lemma merge_loop_fold f (items result : dict) :
  merge_loop f items result
  = fold_left (fun acc p =>
                 match Dict.get (fst p) acc with
                 | Some rk => Dict.set (fst p) (f (snd p) rk) acc
                 | None => Dict.set (fst p) (snd p) acc
                 end) items result.
Proof.
  revert result. induction items as [|[k v] rest IH]; intros result.
  - reflexivity.
  - cbn [merge_loop fold_left fst snd]. apply IH.
Qed.

Lemma keys_merge_dicts f (a b : dict) :
  Dict.unique_keys a = true ->
  keys_of (merge_dicts f a b) = (keys_of b ++ new_keys a b)%list.
Proof.
  intros Hu. unfold merge_dicts. destruct a as [|p a'].
  - unfold new_keys. simpl. now rewrite app_nil_r.
  - destruct b as [|q b']; cbn [Dict.is_empty].
    + unfold new_keys, keys_of. cbn [app].
      symmetry. apply forallb_filter_id. apply forallb_forall. reflexivity.
    + rewrite merge_loop_fold.
      apply (keys_after_assignments value value
               (fun k v acc => match Dict.get k acc with
                               | Some rk => Dict.set k (f v rk) acc
                               | None => Dict.set k v acc
                               end)); [|assumption].
      intros k w d. destruct (Dict.get k d); eauto.
Qed.

(** X7: the merged record lists the second record's keys first, in its
    order, then the keys only the first record holds, in the first's order. *)
Theorem merged_keys_follow_second_record (a b : dict) :
  Dict.unique_keys a = true ->
  exists r, _merge_usage_entries (Some a) (Some b) = Ok r
            /\ keys_of r = (keys_of b ++ new_keys a b)%list.
Proof.
  intros Hu. exists (merge_dicts merge_values a b).
  split; [apply merge_two_dicts|now apply keys_merge_dicts].
Qed.

Example merged_keys_follow_second_record_witness :
  exists r,
    _merge_usage_entries
      (Some [("model", VStr "m"); ("total_tokens", VInt 1); ("prompt_tokens", VInt 2)])
      (Some [("prompt_tokens", VInt 3); ("completion_tokens", VInt 4)]) = Ok r
    /\ keys_of r
       = (keys_of [("prompt_tokens", VInt 3); ("completion_tokens", VInt 4)]
          ++ new_keys [("model", VStr "m"); ("total_tokens", VInt 1);
                       ("prompt_tokens", VInt 2)]
                      [("prompt_tokens", VInt 3); ("completion_tokens", VInt 4)])%list.
Proof. apply merged_keys_follow_second_record. reflexivity. Defined.

Lemma keys_totals_of (items : Dict.t (list dict)) :
  Dict.unique_keys items = true -> keys_of (totals_of items []) = keys_of items.
Proof.
  intros Hu. unfold totals_of.
  rewrite (keys_after_assignments dict (list dict)
             (fun k es acc => Dict.set k (total_of es) acc)); eauto.
  unfold new_keys. cbn [keys_of map app].
  apply forallb_filter_id. apply forallb_forall. reflexivity.
Qed.

(** X8: the totals list exactly the models of the store, in the store's
    order, each with the left-to-right fold of its stored records from an
    empty record; a model without a stored sequence has no total. *)
Theorem totals_follow_the_store self :
  Dict.unique_keys (usage_data self) = true ->
  exists totals,
    get_total_tokens self = Ok totals
    /\ keys_of totals = keys_of (usage_data self)
    /\ (forall lm usage_entries,
          Dict.get lm (usage_data self) = Some usage_entries ->
          exists total, merge_all usage_entries [] = Ok total
                        /\ Dict.get lm totals = Some total)
    /\ (forall lm, Dict.get lm (usage_data self) = None ->
                   Dict.get lm totals = None).
Proof.
  intros Hu. exists (totals_of (usage_data self) []).
  split; [apply get_total_tokens_ok|]. split; [now apply keys_totals_of|]. split.
  - intros lm es Hget. exists (total_of es).
    split; [apply merge_all_ok|]. now rewrite totals_lookup, Hget.
  - intros lm Hget. now rewrite totals_lookup, Hget.
Qed.

Example totals_follow_the_store_witness :
  let self := add_usages [("b", [("total_tokens", VInt 900)]);
                          ("a", [("total_tokens", VInt 1163)]);
                          ("b", [("total_tokens", VInt 580)])] new_tracker in
  exists totals,
    get_total_tokens self = Ok totals
    /\ keys_of totals = keys_of (usage_data self)
    /\ (forall lm usage_entries,
          Dict.get lm (usage_data self) = Some usage_entries ->
          exists total, merge_all usage_entries [] = Ok total
                        /\ Dict.get lm totals = Some total)
    /\ (forall lm, Dict.get lm (usage_data self) = None ->
                   Dict.get lm totals = None).
Proof. intro self. apply totals_follow_the_store. reflexivity. Defined.

(** ** What a sequence of calls stores *)

(** The sequence [self] holds for [lm], empty when it holds none. *)
Lemma stores_record_nonempty c :
  stores_record c = true -> Dict.is_empty (snd c) = false.
Proof.
  unfold stores_record. intros H.
  apply andb_true_iff in H as [H _]. apply andb_true_iff in H as [H _].
  now apply negb_true_iff in H.
Qed.

Lemma add_usage_stored lm c self :
  Dict.get lm (usage_data (fst (add_usage (fst c) (snd c) self)))
  = if reaches_append lm c
    then Some ((match Dict.get lm (usage_data self) with
                | Some es => es
                | None => []
                end) ++ (if stores_record c then [snd c] else []))%list
    else Dict.get lm (usage_data self).
Proof.
  destruct c as [lm' e]. unfold reaches_append, stores_record. cbn [fst snd].
  destruct (String.eqb_spec lm' lm) as [->|Hne]; cbn [andb].
  2:{ now rewrite add_usage_other_model by congruence. }
  unfold add_usage, defaultdict_getitem.
  destruct e as [|f fs]; [reflexivity|]. cbn [Dict.is_empty negb andb].
  cbn [List.length Nat.ltb Nat.leb].
  pose proof (flatten_ok_iff (f :: fs)) as Hiff.
  destruct (flatten_raises_or_same (f :: fs)) as [Hok|[x Hraise]].
  - rewrite Hok. destruct (proj1 Hiff Hok) as [-> ->]. cbn [andb].
    destruct (Dict.get lm (usage_data self)) as [es|]; cbn [fst usage_data];
      now rewrite get_set_eq.
  - rewrite Hraise.
    assert (Hbad : (details_ok "completion_tokens_details" (f :: fs)
                    && details_ok "prompt_tokens_details" (f :: fs))%bool = false).
    { destruct (details_ok "completion_tokens_details" (f :: fs)) eqn:H1;
        [|reflexivity].
      destruct (details_ok "prompt_tokens_details" (f :: fs)) eqn:H2;
        [|reflexivity].
      rewrite (proj2 Hiff (conj eq_refl eq_refl)) in Hraise. discriminate. }
    rewrite Hbad, app_nil_r.
    destruct (Dict.get lm (usage_data self)) as [es|] eqn:Hget;
      cbn [fst usage_data]; [assumption|apply get_set_eq].
Qed.

Lemma stored_for_untouched lm calls :
  existsb (reaches_append lm) calls = false -> stored_for lm calls = [].
Proof.
  unfold stored_for. induction calls as [|c rest IH]; [reflexivity|].
  cbn [existsb filter]. intros H. apply orb_false_iff in H as [Hc Hrest].
  unfold reaches_append in Hc.
  destruct (String.eqb (fst c) lm); cbn [andb] in *; [|now apply IH].
  destruct (stores_record c) eqn:Hs; [|now apply IH].
  apply stores_record_nonempty in Hs. rewrite Hs in Hc. discriminate.
Qed.

Lemma add_usages_stored lm calls : forall self,
  Dict.get lm (usage_data (add_usages calls self))
  = if existsb (reaches_append lm) calls
    then Some ((match Dict.get lm (usage_data self) with
                | Some es => es
                | None => []
                end) ++ stored_for lm calls)%list
    else Dict.get lm (usage_data self).
Proof.
  induction calls as [|c rest IH]; intros self; [reflexivity|].
  destruct c as [lm' e]. cbn [add_usages existsb].
  pose proof (add_usage_stored lm (lm', e) self) as Hstep.
  cbn [fst snd] in Hstep. rewrite IH, Hstep. clear Hstep.
  unfold stored_for. cbn [filter].
  fold (stored_for lm rest).
  destruct (reaches_append lm (lm', e)) eqn:Hreach; cbn [orb].
  - unfold reaches_append in Hreach. cbn [fst snd] in *.
    apply andb_true_iff in Hreach as [-> _]. cbn [andb].
    destruct (existsb (reaches_append lm) rest) eqn:Hrest.
    + destruct (stores_record (lm', e)); cbn [map snd];
        now rewrite <- app_assoc.
    + pose proof (stored_for_untouched lm rest Hrest) as Hnil.
      unfold stored_for in Hnil.
      destruct (stores_record (lm', e)); cbn [map snd]; now rewrite Hnil.
  - assert (Hskip : (String.eqb (fst (lm', e)) lm && stores_record (lm', e))%bool
                    = false).
    { unfold reaches_append in Hreach.
      destruct (String.eqb (fst (lm', e)) lm); [|reflexivity]. cbn [andb] in *.
      destruct (stores_record (lm', e)) eqn:Hs; [|reflexivity].
      apply stores_record_nonempty in Hs. rewrite Hs in Hreach. discriminate. }
    now rewrite Hskip.
Qed.

(** X9: after any calls on a fresh tracker, the sequence stored for a model
    holds, in call order, exactly the records of the calls for that model
    that have a field and harmless detail fields, unchanged; the model has
    a sequence as soon as one call for it had a record with a field. *)
Theorem store_holds_accepted_records_in_call_order lm calls :
  Dict.get lm (usage_data (add_usages calls new_tracker))
  = if existsb (reaches_append lm) calls
    then Some (stored_for lm calls)
    else None.
Proof. now rewrite add_usages_stored. Qed.

(** X10: the total reported for a model after any calls on a fresh tracker
    is the left-to-right fold of the records stored for it, and the model
    is reported as soon as one call for it had a record with a field. *)
Theorem totals_after_calls lm calls :
  exists totals total,
    get_total_tokens (add_usages calls new_tracker) = Ok totals
    /\ merge_all (stored_for lm calls) [] = Ok total
    /\ Dict.get lm totals
       = if existsb (reaches_append lm) calls then Some total else None.
Proof.
  exists (totals_of (usage_data (add_usages calls new_tracker)) []),
    (total_of (stored_for lm calls)).
  split; [apply get_total_tokens_ok|]. split; [apply merge_all_ok|].
  rewrite totals_lookup by (apply add_usages_unique; reflexivity).
  rewrite add_usages_stored.
  now destruct (existsb (reaches_append lm) calls).
Qed.

(** X11: a model whose every call with a non-empty record raised is still
    reported by [get_total_tokens], with an empty record. *)
Theorem raising_calls_leave_an_empty_total lm calls :
  existsb (reaches_append lm) calls = true ->
  stored_for lm calls = [] ->
  exists totals,
    get_total_tokens (add_usages calls new_tracker) = Ok totals
    /\ Dict.get lm totals = Some [].
Proof.
  intros Hreach Hnone.
  exists (totals_of (usage_data (add_usages calls new_tracker)) []).
  split; [apply get_total_tokens_ok|].
  rewrite totals_lookup by (apply add_usages_unique; reflexivity).
  now rewrite add_usages_stored, Hreach, Hnone.
Qed.

Example raising_calls_leave_an_empty_total_witness :
  exists totals,
    get_total_tokens
      (add_usages [("m", [("prompt_tokens", VInt 7);
                          ("prompt_tokens_details", VInt 5)]);
                   ("m", [])] new_tracker) = Ok totals
    /\ Dict.get "m" totals = Some [].
Proof. apply raising_calls_leave_an_empty_total; reflexivity. Defined.

(** ** Totals of nested records *)

Lemma fold_nested k : forall (es : list dict) (ds : list dict) (acc dacc : dict),
  Dict.unique_keys acc = true ->
  Dict.get k acc = Some (VDict dacc) ->
  Forall (fun e => Dict.unique_keys e = true) es ->
  Forall2 (fun e d => Dict.get k e = Some (VDict d)) es ds ->
  Dict.get k (fold_left (merge_dicts merge_values) es acc)
  = Some (VDict (fold_left (merge_dicts merge_values) ds dacc)).
Proof.
  induction es as [|e rest IH]; intros ds acc dacc Hu Hacc Hues Hds.
  - inversion Hds; subst. exact Hacc.
  - inversion Hds as [|? d ? drest He Hrest]; subst.
    inversion Hues as [|? ? Hue Hurest]; subst.
    cbn [fold_left]. apply IH; try assumption.
    + now apply merge_dicts_unique.
    + unfold merge_dicts.
      destruct acc as [|p acc']; [discriminate|].
      destruct e as [|q e']; [discriminate|]. cbn [Dict.is_empty].
      now rewrite (merge_loop_present merge_values k _ _ _ Hu Hacc), He.
Qed.

Lemma total_of_nested k (es ds : list dict) :
  es <> [] ->
  Forall (fun e => Dict.unique_keys e = true) es ->
  Forall2 (fun e d => Dict.get k e = Some (VDict d)) es ds ->
  Dict.get k (total_of es) = Some (VDict (total_of ds)).
Proof.
  intros Hne Hues Hds. destruct es as [|e rest]; [congruence|].
  inversion Hds as [|? d ? drest He Hrest]; subst.
  inversion Hues as [|? ? Hue Hurest]; subst.
  unfold total_of. cbn [fold_left].
  change (merge_dicts merge_values [] e) with e.
  change (merge_dicts merge_values [] d) with d.
  now apply fold_nested.
Qed.

(** X12: when every record stored for a model holds a nested record at
    [k], the total holds at [k] the left-to-right fold of those nested
    records; a field of them that is an integer or [None] throughout
    totals to the integer sum once two records are stored. *)
Theorem nested_totals_are_totals_of_nested lm k k2 self usage_entries nested_entries :
  Dict.unique_keys (usage_data self) = true ->
  Dict.get lm (usage_data self) = Some usage_entries ->
  usage_entries <> [] ->
  Forall (fun e => Dict.unique_keys e = true) usage_entries ->
  Forall2 (fun e d => Dict.get k e = Some (VDict d)) usage_entries nested_entries ->
  Forall (fun d => Dict.unique_keys d = true) nested_entries ->
  Forall (fun d => int_or_none_at k2 d = true) nested_entries ->
  exists totals total nested,
    get_total_tokens self = Ok totals
    /\ Dict.get lm totals = Some total
    /\ Dict.get k total = Some (VDict nested)
    /\ merge_all nested_entries [] = Ok nested
    /\ field_num k2 nested = field_sum k2 nested_entries
    /\ ((2 <= List.length usage_entries)%nat ->
        Dict.get k2 nested = Some (VInt (field_sum k2 nested_entries))).
Proof.
  intros Hu Hget Hne Hues Hds Hud Hkd.
  exists (totals_of (usage_data self) []), (total_of usage_entries),
    (total_of nested_entries).
  split; [apply get_total_tokens_ok|].
  split; [now rewrite totals_lookup, Hget|].
  split; [now apply total_of_nested|].
  split; [apply merge_all_ok|].
  split; [now apply total_of_reading|].
  intros Hlen. pose proof (Forall2_length Hds) as Hl.
  pose proof (total_of_numbers k2 nested_entries Hud Hkd) as Hnum.
  destruct nested_entries as [|d1 [|d2 drest]]; simpl in Hl;
    [unfold dict, Dict.t in *; lia|unfold dict, Dict.t in *; lia|].
  exact Hnum.
Qed.

Example nested_totals_are_totals_of_nested_witness :
  let d1 := [("cached_tokens", VInt 200); ("audio_tokens", VInt 50)] in
  let d2 := [("cached_tokens", VInt 300); ("audio_tokens", VNone)] in
  let d3 := [("cached_tokens", VInt 100); ("audio_tokens", VInt 25)] in
  let e1 := [("prompt_tokens", VInt 1117); ("prompt_tokens_details", VDict d1)] in
  let e2 := [("prompt_tokens", VInt 800); ("prompt_tokens_details", VDict d2)] in
  let e3 := [("prompt_tokens_details", VDict d3); ("prompt_tokens", VInt 500)] in
  let self := add_usages [("gpt-4o-mini", e1); ("gpt-4o-mini", e2);
                          ("gpt-4o-mini", e3)] new_tracker in
  exists totals total nested,
    get_total_tokens self = Ok totals
    /\ Dict.get "gpt-4o-mini" totals = Some total
    /\ Dict.get "prompt_tokens_details" total = Some (VDict nested)
    /\ Dict.get "cached_tokens" nested = Some (VInt 600).
Proof.
  intros d1 d2 d3 e1 e2 e3 self.
  destruct (nested_totals_are_totals_of_nested "gpt-4o-mini"
              "prompt_tokens_details" "cached_tokens" self [e1; e2; e3] [d1; d2; d3])
    as (totals & total & nested & Ht & Hlm & Hk & _ & _ & Hsum).
  - reflexivity.
  - reflexivity.
  - discriminate.
  - repeat constructor.
  - repeat constructor.
  - repeat constructor.
  - repeat constructor.
  - exists totals, total, nested. repeat split; try assumption.
    apply Hsum. simpl. lia.
Defined.

(** ** The scoped tracking session (C4) *)

Module SessionFacts.
Import Session.

(** C4: [track_usage] makes a fresh tracker, runs the body with that tracker
    as the ambient [usage_tracker] and every other setting as before, hands
    the same tracker to the body, and leaves the ambient settings exactly as
    they were before the block, whether the body returned or raised; the
    body's outcome is the block's outcome. *)
Theorem track_usage_restores_context (A : Type)
    (body : tracker_ref -> world -> world * may_raise A) (w : world) :
  exists tracker w_in,
    tracker = List.length (trackers w)
    /\ nth_error (trackers w_in) tracker = Some new_tracker
    /\ (forall r, nth_error (trackers w_in) r = nth_error (trackers w) r
                  \/ r = tracker)
    /\ Dict.get "usage_tracker" (ambient w_in) = Some (ActiveTracker tracker)
    /\ (forall key, key <> "usage_tracker" ->
          Dict.get key (ambient w_in) = Dict.get key (ambient w))
    /\ with_block track_usage body w
       = (with_ambient (ambient w) (fst (body tracker w_in)),
          snd (body tracker w_in))
    /\ ambient (fst (with_block track_usage body w)) = ambient w
    /\ (forall e, snd (body tracker w_in) = Raise e ->
          snd (with_block track_usage body w) = Raise e
          /\ ambient (fst (with_block track_usage body w)) = ambient w).
Proof.
  exists (List.length (trackers w)),
    (mkWorld (Dict.set "usage_tracker"
                (ActiveTracker (List.length (trackers w))) (ambient w))
       (trackers w ++ [new_tracker])).
  assert (Hrun : with_block track_usage body w
                 = (with_ambient (ambient w)
                      (fst (body (List.length (trackers w))
                              (mkWorld (Dict.set "usage_tracker"
                                 (ActiveTracker (List.length (trackers w)))
                                 (ambient w))
                                 (trackers w ++ [new_tracker])))),
                    snd (body (List.length (trackers w))
                           (mkWorld (Dict.set "usage_tracker"
                              (ActiveTracker (List.length (trackers w)))
                              (ambient w))
                              (trackers w ++ [new_tracker]))))).
  { unfold with_block, track_usage, settings_context, new_UsageTracker,
      with_ambient, override. simpl.
    now destruct (body _ _). }
  split; [reflexivity|]. simpl.
  split; [now rewrite nth_error_app2, Nat.sub_diag by lia|].
  split.
  { intros r. destruct (Nat.lt_ge_cases r (List.length (trackers w))) as [Hlt|Hge].
    - left. now rewrite nth_error_app1.
    - destruct (Nat.eq_dec r (List.length (trackers w))) as [->|Hne];
        [now right|left].
      rewrite (proj2 (nth_error_None (trackers w) r)) by lia.
      apply nth_error_None. rewrite length_app. simpl. lia. }
  split; [apply get_set_eq|].
  split; [intros key Hkey; now apply get_set_neq|].
  split; [exact Hrun|].
  rewrite Hrun. simpl. split; [reflexivity|].
  intros e He. now split.
Qed.

End SessionFacts.

(** ** Reading totals leaves the stored records alone (C8) *)

Module HeapFacts.
Import Heap.

Lemma length_store a o h : List.length (store a o h) = List.length h.
Proof.
  revert a. induction h as [|c rest IH]; intros [|a]; simpl; auto.
Qed.

Lemma nth_error_store_eq a o h :
  (a < List.length h)%nat -> nth_error (store a o h) a = Some o.
Proof.
  revert a. induction h as [|c rest IH]; intros [|a]; simpl; intros Hlt;
    try lia; [reflexivity|apply IH; lia].
Qed.

Lemma nth_error_store_neq a b o h :
  a <> b -> nth_error (store a o h) b = nth_error h b.
Proof.
  revert a b. induction h as [|c rest IH]; intros [|a] [|b] Hne; simpl;
    try reflexivity; try congruence.
  apply IH. congruence.
Qed.

Lemma nth_error_lt (A : Type) (l : list A) a x :
  nth_error l a = Some x -> (a < List.length l)%nat.
Proof. intros H. apply nth_error_Some. congruence. Qed.

Lemma extends_same_but r h h' : extends h h' -> same_but r h h'.
Proof. intros He a o _. apply He. Qed.

Lemma same_but_fresh_extends h h' :
  same_but (List.length h) h h' -> extends h h'.
Proof.
  intros Hs a o Ha. apply Hs; [|assumption].
  apply nth_error_lt in Ha. lia.
Qed.

Lemma extends_refl h : extends h h.
Proof. now intros a o. Qed.

Lemma extends_trans h1 h2 h3 : extends h1 h2 -> extends h2 h3 -> extends h1 h3.
Proof. intros H12 H23 a o Ha. auto. Qed.

Lemma extends_app (h new : heap) : extends h (h ++ new)%list.
Proof.
  intros a o Ha. rewrite nth_error_app1; [assumption|].
  now apply nth_error_lt in Ha.
Qed.

Lemma closed_fresh_unreferenced h : closed h -> ~ referenced h (List.length h).
Proof. intros Hc Hr. apply Hc in Hr. lia. Qed.

Lemma changes_refl r (E : addr -> Prop) h : changes r E h h.
Proof. split; [now intros a o|]. split; [lia|]. auto. Qed.

Lemma changes_trans r (E1 E2 E : addr -> Prop) h1 h2 h3 :
  changes r E1 h1 h2 -> changes r E2 h2 h3 ->
  (forall x, E1 x ->
     referenced h1 x \/ (List.length h1 <= x < List.length h3)%nat \/ E x) ->
  (forall x, E2 x ->
     referenced h1 x \/ (List.length h1 <= x < List.length h3)%nat \/ E x) ->
  changes r E h1 h3.
Proof.
  intros (S12 & L12 & R12) (S23 & L23 & R23) HE1 HE2.
  split; [|split].
  - intros a o Hne Ha. auto.
  - lia.
  - intros x Hx. destruct (R23 x Hx) as [H2|[Hnew|Hex]].
    + destruct (R12 x H2) as [H1|[Hnew|Hex]]; auto. right. left. lia.
    + right. left. lia.
    + auto.
Qed.

Lemma changes_weaken r (E E' : addr -> Prop) h h' :
  changes r E h h' ->
  (forall x, E x ->
     referenced h x \/ (List.length h <= x < List.length h')%nat \/ E' x) ->
  changes r E' h h'.
Proof.
  intros Hch HE. apply (changes_trans r E E E' h h h'); auto.
  apply changes_refl.
Qed.

Lemma changes_fresh r (E : addr -> Prop) h h' :
  changes (List.length h) no_extra h h' -> changes r E h h'.
Proof.
  intros (Hs & Hl & Hr). split; [|split].
  - now apply extends_same_but, same_but_fresh_extends.
  - assumption.
  - intros x Hx. destruct (Hr x Hx) as [H|[H|[]]]; auto.
Qed.

(** A new object that holds only references held before. *)
Lemma referenced_alloc (h : heap) (o : obj) x :
  (forall k y, In (k, HRef y) o -> referenced h y) ->
  referenced (h ++ [o])%list x -> referenced h x.
Proof.
  intros Ho (a & o' & k & Ha & Hin).
  destruct (Nat.lt_ge_cases a (List.length h)) as [Hlt|Hge].
  - rewrite nth_error_app1 in Ha by assumption. now exists a, o', k.
  - rewrite nth_error_app2 in Ha by assumption.
    destruct (a - List.length h)%nat as [|i]; simpl in Ha.
    + injection Ha as <-. eauto.
    + now destruct i.
Qed.

Lemma changes_alloc r (E : addr -> Prop) (h : heap) (o : obj) :
  (forall k y, In (k, HRef y) o -> referenced h y) ->
  changes r E h (h ++ [o])%list.
Proof.
  intros Ho. split; [|split].
  - apply extends_same_but, extends_app.
  - rewrite length_app. lia.
  - intros x Hx. left. now apply (referenced_alloc h o).
Qed.

Lemma nth_error_alloc (h : heap) (o : obj) :
  nth_error (h ++ [o])%list (List.length h) = Some o.
Proof. now rewrite nth_error_app2, Nat.sub_diag by lia. Qed.

Lemma cell_referenced h a (o : obj) k y :
  nth_error h a = Some o -> In (k, HRef y) o -> referenced h y.
Proof. intros Ha Hin. now exists a, o, k. Qed.

Lemma changes_closed r (E : addr -> Prop) h h' :
  changes r E h h' -> closed h ->
  (forall x, E x -> (x < List.length h)%nat) ->
  closed h'.
Proof.
  intros (_ & Hlen & Hrefs) Hc HE x Hx.
  destruct (Hrefs x Hx) as [H|[H|H]].
  - apply Hc in H. lia.
  - lia.
  - apply HE in H. lia.
Qed.

Lemma changes_unreferenced r (E : addr -> Prop) h h' x :
  changes r E h h' -> ~ referenced h x -> (x < List.length h)%nat -> ~ E x ->
  ~ referenced h' x.
Proof.
  intros (_ & _ & Hrefs) Hx Hlt HE Hx'.
  destruct (Hrefs x Hx') as [H|[H|H]]; [auto|lia|auto].
Qed.

(** *** Reading through a changed heap *)

Lemma mapM_mono (A B : Type) (f g : A -> option B) (l : list A) ys :
  (forall x y, In x l -> f x = Some y -> g x = Some y) ->
  mapM f l = Some ys -> mapM g l = Some ys.
Proof.
  revert ys. induction l as [|x rest IH]; intros ys Hfg; simpl.
  - auto.
  - destruct (f x) as [y|] eqn:Hfx; [|discriminate].
    destruct (mapM f rest) as [ys'|] eqn:Hrest; [|discriminate].
    intros [= <-]. rewrite (Hfg x y) by (simpl; auto).
    rewrite (IH ys') by (intros; simpl in *; auto). reflexivity.
Qed.

Lemma reify_ref n h a :
  reify (S n) h (HRef a)
  = match nth_error h a with
    | Some o => option_map VDict (reify_fields n h o)
    | None => None
    end.
Proof. reflexivity. Qed.

Lemma reify_scalar n h x : is_ref x = false -> reify n h x = Some (scalar_value x).
Proof. destruct n, x; simpl; congruence. Qed.

(** A value read through [h] reads the same through [h'] when only the
    object at [r] differs and nothing read refers to [r]. *)
Lemma reify_stable n : forall h h' r x v,
  same_but r h h' -> ~ referenced h r -> x <> HRef r ->
  reify n h x = Some v -> reify n h' x = Some v.
Proof.
  induction n as [|n IH]; intros h h' r x v Hs Hr Hx;
    destruct x as [| | | |a]; try (simpl; congruence).
  rewrite !reify_ref.
  destruct (nth_error h a) as [o|] eqn:Ha; [|discriminate].
  rewrite (Hs a o) by congruence.
  destruct (reify_fields n h o) as [d|] eqn:Hd; [|discriminate].
  intros Hv.
  assert (Hd' : reify_fields n h' o = Some d).
  { revert Hd. unfold reify_fields. apply mapM_mono.
    intros [k x] y Hin. simpl.
    destruct (reify n h x) as [vx|] eqn:Hvx; [|discriminate].
    rewrite (IH h h' r x vx Hs Hr); [auto| |assumption].
    intros ->. apply Hr. now exists a, o, k. }
  now rewrite Hd'.
Qed.

Lemma reify_fields_stable n h h' r (o : obj) d :
  same_but r h h' -> ~ referenced h r -> (forall k, ~ In (k, HRef r) o) ->
  reify_fields n h o = Some d -> reify_fields n h' o = Some d.
Proof.
  intros Hs Hr Ho. unfold reify_fields. apply mapM_mono.
  intros [k x] y Hin. simpl.
  destruct (reify n h x) as [vx|] eqn:Hvx; [|discriminate].
  rewrite (reify_stable n h h' r x vx Hs Hr); [auto| |assumption].
  intros ->. now apply (Ho k).
Qed.

Lemma reify_extends n : forall h h' x v,
  extends h h' -> reify n h x = Some v -> reify n h' x = Some v.
Proof.
  induction n as [|n IH]; intros h h' x v He;
    destruct x as [| | | |a]; try (simpl; congruence).
  rewrite !reify_ref.
  destruct (nth_error h a) as [o|] eqn:Ha; [|discriminate].
  rewrite (He a o Ha).
  destruct (reify_fields n h o) as [d|] eqn:Hd; [|discriminate].
  intros Hv.
  assert (Hd' : reify_fields n h' o = Some d).
  { revert Hd. unfold reify_fields. apply mapM_mono.
    intros [k x] y Hin. simpl.
    destruct (reify n h x) as [vx|] eqn:Hvx; [|discriminate].
    now rewrite (IH h h' x vx He Hvx). }
  now rewrite Hd'.
Qed.

Lemma reify_fields_extends n h h' (o : obj) d :
  extends h h' -> reify_fields n h o = Some d -> reify_fields n h' o = Some d.
Proof.
  intros He. unfold reify_fields. apply mapM_mono.
  intros [k x] y Hin. simpl.
  destruct (reify n h x) as [vx|] eqn:Hvx; [|discriminate].
  now rewrite (reify_extends n h h' x vx He Hvx).
Qed.

(** *** Fields of an object and fields of its value *)

Lemma reify_fields_cons n h k x (rest : obj) d :
  reify_fields n h ((k, x) :: rest) = Some d ->
  exists v d', reify n h x = Some v /\ reify_fields n h rest = Some d'
               /\ d = (k, v) :: d'.
Proof.
  unfold reify_fields. simpl.
  destruct (reify n h x) as [v|]; [|discriminate]. simpl.
  destruct (mapM _ rest) as [d'|]; [|discriminate].
  intros [= <-]. now exists v, d'.
Qed.

Lemma reify_fields_get_some n h k x (o : obj) d :
  reify_fields n h o = Some d -> Dict.get k o = Some x ->
  exists v, reify n h x = Some v /\ Dict.get k d = Some v.
Proof.
  revert d. induction o as [|[k0 x0] rest IH]; intros d Hd; simpl.
  - discriminate.
  - apply reify_fields_cons in Hd as (v0 & d' & Hv0 & Hrest & ->). simpl.
    destruct (String.eqb k k0).
    + intros [= <-]. now exists v0.
    + now apply IH.
Qed.

Lemma reify_fields_get_none n h k (o : obj) d :
  reify_fields n h o = Some d -> Dict.get k o = None -> Dict.get k d = None.
Proof.
  revert d. induction o as [|[k0 x0] rest IH]; intros d Hd; simpl.
  - injection Hd as <-. reflexivity.
  - apply reify_fields_cons in Hd as (v0 & d' & Hv0 & Hrest & ->). simpl.
    destruct (String.eqb k k0); [discriminate|now apply IH].
Qed.

Lemma reify_fields_set n h k x v (o : obj) d :
  reify_fields n h o = Some d -> reify n h x = Some v ->
  reify_fields n h (Dict.set k x o) = Some (Dict.set k v d).
Proof.
  intros Hd Hx. revert d Hd.
  induction o as [|[k0 x0] rest IH]; intros d Hd.
  - injection Hd as <-. unfold reify_fields. simpl. now rewrite Hx.
  - pose proof Hd as Hd0.
    apply reify_fields_cons in Hd as (v0 & d' & Hv0 & Hrest & ->). simpl.
    destruct (String.eqb k k0).
    + unfold reify_fields in *. simpl in *. rewrite Hx. simpl.
      destruct (mapM _ rest); [|discriminate]. now injection Hrest as <-.
    + specialize (IH d' Hrest). unfold reify_fields in *. simpl.
      now rewrite Hv0, IH.
Qed.

Lemma reify_fields_is_empty n h (o : obj) d :
  reify_fields n h o = Some d -> Dict.is_empty d = Dict.is_empty o.
Proof.
  destruct o as [|[k x] rest].
  - now intros [= <-].
  - intros Hd. now apply reify_fields_cons in Hd as (v0 & d' & _ & _ & ->).
Qed.

Lemma reify_ref_dict n h a v :
  reify n h (HRef a) = Some v ->
  exists n' o d, n = S n' /\ nth_error h a = Some o
                 /\ reify_fields n' h o = Some d /\ v = VDict d.
Proof.
  destruct n as [|n']; [discriminate|]. rewrite reify_ref.
  destruct (nth_error h a) as [o|] eqn:Ha; [|discriminate].
  destruct (reify_fields n' h o) as [d|] eqn:Hd; [|discriminate].
  intros [= <-]. now exists n', o, d.
Qed.

Lemma In_set (V : Type) k (x : V) (d : Dict.t V) p :
  In p (Dict.set k x d) -> In p d \/ p = (k, x).
Proof.
  induction d as [|[k0 x0] rest IH]; simpl.
  - intros [<-|[]]. now right.
  - destruct (String.eqb_spec k k0) as [->|Hne]; simpl.
    + intros [<-|Hin]; auto.
    + intros [<-|Hin]; auto. destruct (IH Hin); auto.
Qed.

(** [result[k] = x], where nothing refers to [result] and [x] reads as
    [vx]. *)
Lemma setitem_spec n h result k x vx (r : obj) d :
  nth_error h result = Some r -> ~ referenced h result -> x <> HRef result ->
  reify_fields n h r = Some d -> reify n h x = Some vx ->
  exists h',
    setitem result k x h = Some h'
    /\ changes result (fun y => x = HRef y) h h'
    /\ nth_error h' result = Some (Dict.set k x r)
    /\ reify_fields n h' (Dict.set k x r) = Some (Dict.set k vx d).
Proof.
  intros Hres Hunref Hx Hd Hvx.
  pose proof (nth_error_lt _ _ _ _ Hres) as Hlt.
  exists (store result (Dict.set k x r) h). unfold setitem. rewrite Hres.
  assert (Hsame : same_but result h (store result (Dict.set k x r) h)).
  { intros a o Hne Ha. rewrite nth_error_store_neq by congruence. assumption. }
  split; [reflexivity|]. split; [|split].
  - split; [exact Hsame|]. split; [rewrite length_store; lia|].
    intros y (a & o & k' & Ha & Hin).
    destruct (Nat.eq_dec a result) as [->|Hne].
    + rewrite nth_error_store_eq in Ha by assumption. injection Ha as <-.
      apply In_set in Hin as [Hin|[= _ ->]].
      * left. now exists result, r, k'.
      * right. right. reflexivity.
    + rewrite nth_error_store_neq in Ha by congruence.
      left. now exists a, o, k'.
  - now apply nth_error_store_eq.
  - apply reify_fields_set.
    + apply (reify_fields_stable n h _ result); try assumption.
      intros k' Hin. apply Hunref. now exists result, r, k'.
    + apply (reify_stable n h _ result); assumption.
Qed.

(** Scalars on the heap and scalars as values. *)
Lemma merge_scalars_scalar v rk :
  is_dict v = false -> is_dict rk = false ->
  is_dict (merge_scalars v rk) = false.
Proof.
  destruct v, rk; try discriminate; intros _ _; unfold merge_scalars; simpl;
    try reflexivity;
    repeat match goal with
           | |- context [if ?b then _ else _] => destruct b
           end; reflexivity.
Qed.

Lemma scalar_value_not_dict x : is_dict (scalar_value x) = false.
Proof. now destruct x. Qed.

Lemma scalar_value_hscalar v : is_dict v = false -> scalar_value (hscalar v) = v.
Proof. destruct v; simpl; congruence. Qed.

Lemma hscalar_not_ref v : is_ref (hscalar v) = false.
Proof. now destruct v. Qed.

Lemma merge_values_scalars v rk :
  is_dict v = false -> is_dict rk = false ->
  merge_values v rk = merge_scalars v rk.
Proof. destruct v, rk; simpl; congruence. Qed.

Lemma merge_values_dict_scalar d rk :
  is_dict rk = false -> merge_values (VDict d) rk = VDict d.
Proof. destruct rk; simpl; congruence. Qed.

Lemma merge_values_scalar_dict v d :
  is_dict v = false -> merge_values v (VDict d) = VDict d.
Proof. destruct v; simpl; congruence. Qed.

(** *** The merge on objects computes the merge on values *)

Lemma merge_present_scalars rec result k v rk h :
  is_ref v = false -> is_ref rk = false ->
  merge_present rec result k v rk h
  = setitem result k
      (hscalar (merge_scalars (scalar_value v) (scalar_value rk))) h.
Proof. destruct v, rk; simpl; congruence. Qed.

Lemma merge_present_scalar_ref rec result k v q h :
  is_ref v = false -> merge_present rec result k v (HRef q) h = Some h.
Proof. destruct v; simpl; congruence. Qed.

Lemma merge_present_ref_scalar rec result k p rk h :
  is_ref rk = false ->
  merge_present rec result k (HRef p) rk h
  = match copy p h with
    | Some (c, h') => setitem result k (HRef c) h'
    | None => None
    end.
Proof. destruct rk; simpl; congruence. Qed.

Lemma reify_not_ref n h x v :
  is_ref x = false -> reify n h x = Some v ->
  v = scalar_value x /\ is_dict v = false.
Proof.
  intros Hx Hv. rewrite reify_scalar in Hv by assumption.
  injection Hv as <-. split; [reflexivity|apply scalar_value_not_dict].
Qed.

Lemma is_ref_cases x : (exists a, x = HRef a) \/ is_ref x = false.
Proof. destruct x; eauto. Qed.

Lemma merge_item_spec n rec result k v vv h (r : obj) d_res :
  merge_spec n rec ->
  closed h -> ~ referenced h result -> v <> HRef result ->
  nth_error h result = Some r ->
  reify n h v = Some vv -> reify_fields n h r = Some d_res ->
  exists h' r',
    merge_item rec result k v h = Some h'
    /\ changes result (fun x => v = HRef x) h h'
    /\ nth_error h' result = Some r'
    /\ reify_fields n h' r' = Some (merged_field k vv d_res).
Proof.
  intros Hrec Hc Hunref Hv Hres Hvv Hd.
  pose proof (nth_error_lt _ _ _ _ Hres) as Hlt.
  unfold merge_item, merged_field. rewrite Hres.
  destruct (Dict.get k r) as [rk|] eqn:Hrk.
  2:{ rewrite (reify_fields_get_none _ _ _ _ _ Hd Hrk).
      destruct (setitem_spec n h result k v vv r d_res Hres Hunref Hv Hd Hvv)
        as (h' & Hset & Hch & Hres' & Hd').
      now exists h', (Dict.set k v r). }
  destruct (reify_fields_get_some _ _ _ _ _ _ Hd Hrk) as (vrk & Hvrk & Hget).
  rewrite Hget.
  destruct (is_ref_cases v) as [[p ->]|Hsv];
    destruct (is_ref_cases rk) as [[q ->]|Hsrk].
  - (* two nested records: recurse, then store the merged record *)
    destruct (reify_ref_dict _ _ _ _ Hvv) as (_ & _ & dp & _ & _ & _ & ->).
    destruct (reify_ref_dict _ _ _ _ Hvrk) as (_ & _ & dq & _ & _ & _ & ->).
    destruct (Hrec p q h dp dq Hc Hvv Hvrk) as (h1 & Hcall & Hch1 & Hm & Hdm).
    simpl merge_present. rewrite Hcall.
    assert (He1 : extends h h1)
      by (apply same_but_fresh_extends; apply Hch1).
    assert (Hunref1 : ~ referenced h1 result)
      by (apply (changes_unreferenced _ _ _ _ _ Hch1); auto).
    destruct (setitem_spec n h1 result k (HRef (List.length h))
                (VDict (merge_dicts merge_values dp dq)) r d_res)
      as (h2 & Hset & Hch2 & Hres2 & Hd2); auto.
    { intros [= Heq]. lia. }
    { now apply (reify_fields_extends n h). }
    exists h2, (Dict.set k (HRef (List.length h)) r).
    split; [exact Hset|]. split; [|split; assumption].
    apply (changes_trans result no_extra
             (fun y => HRef (List.length h) = HRef y) _ h h1 h2).
    + now apply changes_fresh.
    + exact Hch2.
    + intros x [].
    + intros x [= <-]. right. left.
      destruct Hch2 as (_ & Hl2 & _). split; [lia|].
      destruct (reify_ref_dict _ _ _ _ Hdm) as (_ & o & _ & _ & Ho & _).
      apply nth_error_lt in Ho. lia.
  - (* a nested record against a scalar: store a copy of the record *)
    destruct (reify_ref_dict _ _ _ _ Hvv) as (n' & op & dp & Hn & Hp & Hdp & ->).
    destruct (reify_not_ref _ _ _ _ Hsrk Hvrk) as [-> Hnd].
    rewrite merge_present_ref_scalar by assumption.
    unfold copy, alloc. rewrite Hp.
    set (h1 := (h ++ [op])%list).
    assert (Hch1 : changes result (fun x => HRef p = HRef x) h h1).
    { apply changes_alloc. intros k' y Hin. now apply (cell_referenced h p op k'). }
    assert (He1 : extends h h1) by apply extends_app.
    assert (Hunref1 : ~ referenced h1 result).
    { intros Hr. apply Hunref. revert Hr. apply referenced_alloc.
      intros k' y Hin. now apply (cell_referenced h p op k'). }
    destruct (setitem_spec n h1 result k (HRef (List.length h))
                (VDict dp) r d_res)
      as (h2 & Hset & Hch2 & Hres2 & Hd2); auto.
    { intros [= Heq]. lia. }
    { now apply (reify_fields_extends n h). }
    { rewrite Hn, reify_ref.
      replace (nth_error h1 (List.length h)) with (Some op)
        by (symmetry; apply nth_error_alloc).
      now rewrite (reify_fields_extends n' h h1 op dp He1 Hdp). }
    exists h2, (Dict.set k (HRef (List.length h)) r).
    split; [exact Hset|]. split; [|split].
    + apply (changes_trans result (fun x => HRef p = HRef x)
               (fun y => HRef (List.length h) = HRef y) _ h h1 h2);
        [exact Hch1|exact Hch2|auto|].
      intros x [= <-]. right. left.
      destruct Hch2 as (_ & Hl2 & _). split; [lia|].
      unfold h1 in Hl2. rewrite length_app in Hl2. simpl in Hl2. lia.
    + assumption.
    + now rewrite merge_values_dict_scalar.
  - (* a scalar against a nested record: the record stays *)
    destruct (reify_not_ref _ _ _ _ Hsv Hvv) as [-> Hnd].
    destruct (reify_ref_dict _ _ _ _ Hvrk) as (_ & _ & dq & _ & _ & _ & ->).
    rewrite merge_present_scalar_ref by assumption.
    exists h, r. split; [reflexivity|]. split; [apply changes_refl|].
    split; [assumption|].
    rewrite merge_values_scalar_dict by assumption.
    now rewrite (set_same _ _ _ _ Hget).
  - (* two scalars *)
    destruct (reify_not_ref _ _ _ _ Hsv Hvv) as [-> Hndv].
    destruct (reify_not_ref _ _ _ _ Hsrk Hvrk) as [-> Hndrk].
    rewrite merge_present_scalars by assumption.
    set (s := merge_scalars (scalar_value v) (scalar_value rk)).
    assert (Hs : is_dict s = false) by now apply merge_scalars_scalar.
    destruct (setitem_spec n h result k (hscalar s) s r d_res)
      as (h' & Hset & Hch & Hres' & Hd'); auto.
    { intros Heq. pose proof (hscalar_not_ref s) as Hnr.
      rewrite Heq in Hnr. discriminate. }
    { rewrite reify_scalar by apply hscalar_not_ref.
      now rewrite scalar_value_hscalar. }
    exists h', (Dict.set k (hscalar s) r).
    split; [exact Hset|]. split; [|split].
    + apply (changes_weaken _ _ _ _ _ Hch).
      intros x Heq. pose proof (hscalar_not_ref s) as Hnr.
      rewrite Heq in Hnr. discriminate.
    + assumption.
    + now rewrite merge_values_scalars.
Qed.

Lemma merge_loop_spec n rec result :
  merge_spec n rec ->
  forall (items : obj) h (r : obj) d_items d_res,
    closed h -> ~ referenced h result ->
    (forall k, ~ In (k, HRef result) items) ->
    nth_error h result = Some r ->
    reify_fields n h items = Some d_items ->
    reify_fields n h r = Some d_res ->
    exists h' r',
      merge_loop rec result items h = Some h'
      /\ changes result (fun x => exists k, In (k, HRef x) items) h h'
      /\ nth_error h' result = Some r'
      /\ reify_fields n h' r'
         = Some (Values.merge_loop merge_values d_items d_res).
Proof.
  intros Hrec. induction items as [|[k v] rest IH];
    intros h r d_items d_res Hc Hunref Hitems Hres Hdi Hdr.
  - injection Hdi as <-. exists h, r. simpl.
    split; [reflexivity|]. split; [apply changes_refl|]. now split.
  - apply reify_fields_cons in Hdi as (vv & d_rest & Hvv & Hrest & ->).
    pose proof (nth_error_lt _ _ _ _ Hres) as Hlt.
    assert (Hv : v <> HRef result)
      by (intros ->; apply (Hitems k); simpl; auto).
    destruct (merge_item_spec n rec result k v vv h r d_res
                Hrec Hc Hunref Hv Hres Hvv Hdr)
      as (h1 & r1 & Hitem & Hch1 & Hres1 & Hd1).
    assert (Hc1 : closed h1).
    { apply (changes_closed _ _ _ _ Hch1 Hc). intros x ->.
      destruct (reify_ref_dict _ _ _ _ Hvv) as (_ & o & _ & _ & Ho & _).
      now apply nth_error_lt in Ho. }
    assert (Hunref1 : ~ referenced h1 result).
    { apply (changes_unreferenced _ _ _ _ _ Hch1); auto. }
    assert (Hrest1 : reify_fields n h1 rest = Some d_rest).
    { apply (reify_fields_stable n h h1 result); auto.
      - apply Hch1.
      - intros k' Hin. apply (Hitems k'). simpl. auto. }
    destruct (IH h1 r1 d_rest (merged_field k vv d_res) Hc1 Hunref1)
      as (h' & r' & Hloop & Hch' & Hres' & Hd'); auto.
    { intros k' Hin. apply (Hitems k'). simpl. auto. }
    exists h', r'. simpl. rewrite Hitem.
    split; [exact Hloop|]. split; [|split; assumption].
    apply (changes_trans result _ _ _ h h1 h' Hch1 Hch').
    + intros x ->. right. right. exists k. simpl. auto.
    + intros x [k' Hin]. right. right. exists k'. simpl. auto.
Qed.

Lemma merge_dicts_empty_left f (d1 d2 : dict) :
  Dict.is_empty d1 = true -> merge_dicts f d1 d2 = d2.
Proof. unfold merge_dicts. now intros ->. Qed.

Lemma merge_dicts_empty_right f (d1 d2 : dict) :
  Dict.is_empty d1 = false -> Dict.is_empty d2 = true ->
  merge_dicts f d1 d2 = d1.
Proof. unfold merge_dicts. now intros -> ->. Qed.

Lemma merge_dicts_nonempty f (d1 d2 : dict) :
  Dict.is_empty d1 = false -> Dict.is_empty d2 = false ->
  merge_dicts f d1 d2 = Values.merge_loop f d1 d2.
Proof. unfold merge_dicts. now intros -> ->. Qed.

(** [dict(x)] of a readable record: a new, unreferenced object that reads
    as the same record. *)
Lemma copy_spec n h a (o : obj) d :
  closed h -> nth_error h a = Some o -> reify_fields n h o = Some d ->
  exists h',
    copy a h = Some (List.length h, h')
    /\ changes (List.length h) no_extra h h'
    /\ ~ referenced h' (List.length h)
    /\ reify (S n) h' (HRef (List.length h)) = Some (VDict d).
Proof.
  intros Hc Ha Hd. exists (h ++ [o])%list. unfold copy, alloc. rewrite Ha.
  assert (Ho : forall k y, In (k, HRef y) o -> referenced h y)
    by (intros k y Hin; now apply (cell_referenced h a o k)).
  split; [reflexivity|]. split; [now apply changes_alloc|]. split.
  - intros Hr. apply (closed_fresh_unreferenced h Hc).
    now apply (referenced_alloc h o).
  - rewrite reify_ref, nth_error_alloc.
    now rewrite (reify_fields_extends n h _ o d (extends_app h [o]) Hd).
Qed.

(** The merge of two stored records allocates its result and the nested
    records it builds, writes only to those, and its result reads as the
    value-level merge. *)
Theorem merge_refines n : merge_spec n (_merge_usage_entries n).
Proof.
  induction n as [|n IH]; intros a1 a2 h d1 d2 Hc H1 H2; [discriminate|].
  rewrite reify_ref in H1, H2.
  destruct (nth_error h a1) as [o1|] eqn:Ha1; [|discriminate].
  destruct (nth_error h a2) as [o2|] eqn:Ha2; [|discriminate].
  destruct (reify_fields n h o1) as [d1'|] eqn:Hd1; [|discriminate].
  destruct (reify_fields n h o2) as [d2'|] eqn:Hd2; [|discriminate].
  simpl in H1, H2. injection H1 as ->. injection H2 as ->.
  pose proof (reify_fields_is_empty _ _ _ _ Hd1) as He1.
  pose proof (reify_fields_is_empty _ _ _ _ Hd2) as He2.
  cbn [_merge_usage_entries]. rewrite Ha1, Ha2.
  destruct (Dict.is_empty o1) eqn:Hempty1.
  { rewrite merge_dicts_empty_left by assumption.
    now apply (copy_spec n h a2 o2). }
  destruct (Dict.is_empty o2) eqn:Hempty2.
  { rewrite merge_dicts_empty_right by assumption.
    now apply (copy_spec n h a1 o1). }
  rewrite merge_dicts_nonempty by assumption.
  unfold alloc. set (result := List.length h). set (h1 := (h ++ [o2])%list).
  assert (Ho2 : forall k y, In (k, HRef y) o2 -> referenced h y)
    by (intros k y Hin; now apply (cell_referenced h a2 o2 k)).
  assert (Hch1 : changes result no_extra h h1) by now apply changes_alloc.
  assert (Hext1 : extends h h1) by apply extends_app.
  assert (Hc1 : closed h1).
  { apply (changes_closed _ _ _ _ Hch1 Hc). intros x []. }
  assert (Hunref1 : ~ referenced h1 result).
  { intros Hr. apply (closed_fresh_unreferenced h Hc).
    now apply (referenced_alloc h o2). }
  assert (Ho1 : forall k, ~ In (k, HRef result) o1).
  { intros k Hin. apply (closed_fresh_unreferenced h Hc).
    now apply (cell_referenced h a1 o1 k). }
  destruct (merge_loop_spec n (_merge_usage_entries n) result IH
              o1 h1 o2 d1 d2 Hc1 Hunref1 Ho1)
    as (h' & r' & Hloop & Hch' & Hres' & Hd').
  { apply nth_error_alloc. }
  { now apply (reify_fields_extends n h). }
  { now apply (reify_fields_extends n h). }
  rewrite Hloop. exists h'. split; [reflexivity|].
  assert (Hlen1 : List.length h1 = S (List.length h))
    by (unfold h1; rewrite length_app; simpl; lia).
  split; [|split].
  - apply (changes_trans result no_extra _ no_extra h h1 h' Hch1 Hch').
    + intros x [].
    + intros x [k Hin]. left. now apply (cell_referenced h a1 o1 k).
  - apply (changes_unreferenced _ _ _ _ _ Hch' Hunref1).
    + fold result. lia.
    + intros [k Hin]. now apply (Ho1 k).
  - rewrite reify_ref. fold result. rewrite Hres'. now rewrite Hd'.
Qed.

(** *** Totals on objects compute the totals on values *)

Lemma reify_dict_ref n h a d :
  reify_dict n h a = Some d <-> reify n h (HRef a) = Some (VDict d).
Proof.
  unfold reify_dict. destruct (reify n h (HRef a)) as [[| | | |d']|];
    split; intros H; try discriminate H; now injection H as ->.
Qed.

Lemma reify_dicts_extends n h h' (es : list addr) ds :
  extends h h' ->
  mapM (reify_dict n h) es = Some ds -> mapM (reify_dict n h') es = Some ds.
Proof.
  intros He. apply mapM_mono. intros a d _ Hd.
  apply reify_dict_ref. apply (reify_extends n h h' _ _ He).
  now apply reify_dict_ref.
Qed.

Lemma reify_store_extends n h h' (data : Dict.t (list addr)) store :
  extends h h' ->
  reify_store n h data = Some store -> reify_store n h' data = Some store.
Proof.
  intros He. unfold reify_store. apply mapM_mono. intros [lm es] y _. simpl.
  destruct (mapM (reify_dict n h) es) as [ds|] eqn:Hds; [|discriminate].
  now rewrite (reify_dicts_extends n h h' es ds He Hds).
Qed.

Lemma changes_extends (E : addr -> Prop) h h' :
  changes (List.length h) E h h' -> extends h h'.
Proof. intros (Hs & _). now apply same_but_fresh_extends. Qed.

Lemma merge_all_spec n : forall (es : list addr) h total d_total ds,
  closed h ->
  reify_dict n h total = Some d_total ->
  mapM (reify_dict n h) es = Some ds ->
  exists t h',
    merge_all n es total h = Some (t, h')
    /\ changes (List.length h) no_extra h h'
    /\ (t = total \/ (List.length h <= t)%nat)
    /\ reify_dict n h' t
       = Some (fold_left (merge_dicts merge_values) ds d_total).
Proof.
  induction es as [|e rest IH]; intros h total d_total ds Hc Htotal Hes.
  - injection Hes as <-. exists total, h. simpl.
    split; [reflexivity|]. split; [apply changes_refl|]. auto.
  - simpl in Hes.
    destruct (reify_dict n h e) as [d|] eqn:He; [|discriminate].
    destruct (mapM (reify_dict n h) rest) as [ds'|] eqn:Hrest; [|discriminate].
    injection Hes as <-.
    destruct (merge_refines n total e h d_total d Hc) as (h1 & Hm & Hch1 & _ & Hd1).
    { now apply reify_dict_ref. }
    { now apply reify_dict_ref. }
    assert (Hc1 : closed h1).
    { apply (changes_closed _ _ _ _ Hch1 Hc). intros x []. }
    destruct (IH h1 (List.length h) (merge_dicts merge_values d_total d) ds' Hc1)
      as (t & h' & Hall & Hch' & Ht & Hdt).
    { now apply reify_dict_ref. }
    { apply (reify_dicts_extends n h); [|assumption].
      now apply (changes_extends no_extra). }
    exists t, h'. simpl. rewrite Hm.
    split; [exact Hall|]. split; [|split].
    + apply (changes_trans _ no_extra no_extra no_extra h h1 h' Hch1).
      * now apply changes_fresh.
      * intros x [].
      * intros x [].
    + right. destruct Hch1 as (_ & Hl1 & _). destruct Ht as [->|Ht]; lia.
    + exact Hdt.
Qed.

Lemma wrap_set lm (d : dict) (acc : Dict.t dict) :
  Dict.set lm (VDict d) (wrap acc) = wrap (Dict.set lm d acc).
Proof.
  induction acc as [|[k d0] rest IH]; simpl; [reflexivity|].
  destruct (String.eqb lm k); simpl; [reflexivity|now rewrite IH].
Qed.

Lemma totals_loop_spec n res : forall (items : Dict.t (list addr)) h (r : obj)
    pitems acc,
  closed h -> ~ referenced h res ->
  nth_error h res = Some r ->
  Forall (fun p => Forall (fun a => a <> res) (snd p)) items ->
  reify_store (S n) h items = Some pitems ->
  reify_fields (S n) h r = Some (wrap acc) ->
  exists h' r',
    totals_loop (S n) items res h = Some h'
    /\ changes res no_extra h h'
    /\ nth_error h' res = Some r'
    /\ reify_fields (S n) h' r' = Some (wrap (totals_of pitems acc)).
Proof.
  induction items as [|[lm es] rest IH];
    intros h r pitems acc Hc Hunref Hres Hne Hstore Hr.
  - injection Hstore as <-. exists h, r. simpl.
    split; [reflexivity|]. split; [apply changes_refl|]. now split.
  - pose proof (nth_error_lt _ _ _ _ Hres) as Hlt.
    unfold reify_store in Hstore. simpl in Hstore.
    destruct (mapM (reify_dict (S n) h) es) as [ds|] eqn:Hds; [|discriminate].
    simpl in Hstore.
    destruct (mapM _ rest) as [prest|] eqn:Hrest; [|discriminate].
    injection Hstore as <-.
    inversion Hne as [|? ? Hnes Hnerest]; subst. simpl in Hnes.
    cbn [totals_loop]. unfold alloc. cbv beta iota.
    set (h0 := (h ++ _)%list).
    assert (Hch0 : changes res no_extra h h0)
      by (apply changes_alloc; intros k y []).
    assert (Hc0 : closed h0).
    { apply (changes_closed _ _ _ _ Hch0 Hc). intros x []. }
    assert (Hlen0 : List.length h0 = S (List.length h))
      by (unfold h0; rewrite length_app; simpl; lia).
    destruct (merge_all_spec (S n) es h0 (List.length h) [] ds Hc0)
      as (t & h1 & Hall & Hch1 & Ht & Hdt).
    { apply reify_dict_ref. rewrite reify_ref. unfold h0.
      now rewrite nth_error_alloc. }
    { apply (reify_dicts_extends (S n) h); [apply extends_app|assumption]. }
    rewrite Hall.
    assert (Hext1 : extends h h1).
    { apply (extends_trans h h0 h1); [apply extends_app|].
      now apply (changes_extends no_extra). }
    assert (Hch01 : changes res no_extra h h1).
    { apply (changes_trans res no_extra no_extra no_extra h h0 h1 Hch0).
      - now apply changes_fresh.
      - intros x [].
      - intros x []. }
    assert (Hunref1 : ~ referenced h1 res).
    { apply (changes_unreferenced _ _ _ _ _ Hch01); auto. }
    assert (Htlt : (List.length h <= t < List.length h1)%nat).
    { split; [destruct Ht as [->|Ht]; lia|].
      apply reify_dict_ref in Hdt.
      destruct (reify_ref_dict _ _ _ _ Hdt) as (_ & o & _ & _ & Ho & _).
      now apply nth_error_lt in Ho. }
    destruct (setitem_spec (S n) h1 res lm (HRef t) (VDict (total_of ds))
                r (wrap acc))
      as (h2 & Hset & Hch2 & Hres2 & Hd2); auto.
    { intros [= Heq]. lia. }
    { now apply (reify_fields_extends (S n) h). }
    { now apply reify_dict_ref. }
    rewrite Hset.
    assert (Hch02 : changes res no_extra h h2).
    { apply (changes_trans res no_extra _ no_extra h h1 h2 Hch01 Hch2).
      - intros x [].
      - intros x [= <-]. right. left.
        destruct Hch2 as (_ & Hl2 & _). lia. }
    assert (Hc2 : closed h2).
    { apply (changes_closed _ _ _ _ Hch02 Hc). intros x []. }
    assert (Hunref2 : ~ referenced h2 res).
    { apply (changes_unreferenced _ _ _ _ _ Hch02); auto. }
    rewrite wrap_set in Hd2.
    destruct (IH h2 (Dict.set lm (HRef t) r) prest
                (Dict.set lm (total_of ds) acc) Hc2 Hunref2 Hres2 Hnerest)
      as (h' & r' & Hloop & Hch' & Hres' & Hd'); auto.
    { revert Hrest. apply mapM_mono. intros [lm' es'] y Hin. simpl.
      destruct (mapM (reify_dict (S n) h) es') as [ds'|] eqn:Hds';
        [|discriminate].
      intros Hy. rewrite (mapM_mono _ _ (reify_dict (S n) h)
                            (reify_dict (S n) h2) es' ds'); auto.
      intros a d Ha Hd. apply reify_dict_ref.
      apply (reify_stable (S n) h h2 res); auto.
      - apply Hch02.
      - intros [= ->]. rewrite Forall_forall in Hnerest.
        specialize (Hnerest _ Hin). simpl in Hnerest.
        rewrite Forall_forall in Hnerest. now apply (Hnerest res).
      - now apply reify_dict_ref. }
    exists h', r'. split; [exact Hloop|]. split; [|split; assumption].
    apply (changes_trans res no_extra no_extra no_extra h h2 h' Hch02 Hch').
    + intros x [].
    + intros x [].
Qed.

Lemma mapM_Forall (A B : Type) (f : A -> option B) (l : list A) ys :
  mapM f l = Some ys -> Forall (fun x => exists y, f x = Some y) l.
Proof.
  revert ys. induction l as [|x rest IH]; intros ys; simpl.
  - constructor.
  - destruct (f x) as [y|] eqn:Hx; [|discriminate].
    destruct (mapM f rest) as [ys'|]; [|discriminate].
    intros _. constructor; eauto.
Qed.

(** Stored records are objects of the heap. *)
Lemma stored_below n h (items : Dict.t (list addr)) pitems :
  reify_store n h items = Some pitems ->
  Forall (fun p => Forall (fun a => a <> List.length h) (snd p)) items.
Proof.
  intros Hstore. apply mapM_Forall in Hstore.
  eapply Forall_impl; [|exact Hstore].
  intros [lm es] [y Hy]. simpl in *.
  destruct (mapM (reify_dict n h) es) as [ds|] eqn:Hds; [|discriminate].
  apply mapM_Forall in Hds. eapply Forall_impl; [|exact Hds].
  intros a [d Hd] ->. apply reify_dict_ref in Hd.
  destruct (reify_ref_dict _ _ _ _ Hd) as (_ & o & _ & _ & Ho & _).
  apply nth_error_lt in Ho. lia.
Qed.

(** One call: a new object for the totals, no object that existed is
    changed, and the result reads as the value-level totals. *)
Lemma get_total_tokens_spec n self h store :
  closed h ->
  reify_store (S n) h (usage_data self) = Some store ->
  exists h',
    get_total_tokens (S n) self h = Some (List.length h, h')
    /\ changes (List.length h) no_extra h h'
    /\ reify (S (S n)) h' (HRef (List.length h))
       = Some (totals_value (totals_of store [])).
Proof.
  intros Hc Hstore. unfold get_total_tokens, alloc.
  set (res := List.length h). set (h0 := (h ++ _)%list).
  assert (Hch0 : changes res no_extra h h0)
    by (apply changes_alloc; intros k y []).
  assert (Hc0 : closed h0).
  { apply (changes_closed _ _ _ _ Hch0 Hc). intros x []. }
  assert (Hunref0 : ~ referenced h0 res).
  { intros Hr. apply (closed_fresh_unreferenced h Hc).
    revert Hr. apply referenced_alloc. intros k y []. }
  destruct (totals_loop_spec n res (usage_data self) h0 [] store [] Hc0 Hunref0)
    as (h' & r' & Hloop & Hch' & Hres' & Hd').
  { apply nth_error_alloc. }
  { now apply (stored_below (S n) h _ store). }
  { apply (reify_store_extends (S n) h); [apply extends_app|assumption]. }
  { reflexivity. }
  rewrite Hloop. exists h'. split; [reflexivity|]. split.
  - apply (changes_trans res no_extra no_extra no_extra h h0 h' Hch0 Hch').
    + intros x [].
    + intros x [].
  - rewrite reify_ref, Hres', Hd'. reflexivity.
Qed.

(** Any number of calls in a row. *)
Lemma repeat_get_total_tokens_spec n self store calls : forall h,
  closed h ->
  reify_store (S n) h (usage_data self) = Some store ->
  exists totals h',
    repeat_get_total_tokens calls (S n) self h = Some (totals, h')
    /\ List.length totals = calls
    /\ extends h h'
    /\ closed h'
    /\ Forall (fun t => reify (S (S n)) h' (HRef t)
                        = Some (totals_value (totals_of store []))) totals.
Proof.
  induction calls as [|calls IH]; intros h Hc Hstore.
  - exists [], h. simpl. split; [reflexivity|]. split; [reflexivity|].
    split; [apply extends_refl|]. split; [assumption|constructor].
  - destruct (get_total_tokens_spec n self h store Hc Hstore)
      as (h1 & Hcall & Hch1 & Hd1).
    assert (Hext1 : extends h h1) by now apply (changes_extends no_extra).
    assert (Hc1 : closed h1).
    { apply (changes_closed _ _ _ _ Hch1 Hc). intros x []. }
    destruct (IH h1 Hc1) as (totals & h' & Hrep & Hlen & Hext' & Hc' & Hall).
    { now apply (reify_store_extends (S n) h). }
    exists (List.length h :: totals), h'.
    cbn [repeat_get_total_tokens]. rewrite Hcall, Hrep.
    split; [reflexivity|]. split; [simpl; now rewrite Hlen|].
    split; [now apply (extends_trans h h1 h')|]. split; [assumption|].
    constructor; [|assumption].
    now apply (reify_extends (S (S n)) h1 h').
Qed.

Lemma closedb_sound h : closedb h = true -> closed h.
Proof.
  unfold closedb. intros Hb x (a & o & k & Ha & Hin).
  rewrite forallb_forall in Hb. specialize (Hb o (nth_error_In _ _ Ha)).
  rewrite forallb_forall in Hb. specialize (Hb _ Hin). simpl in Hb.
  now apply Nat.ltb_lt.
Qed.

(** C8: on a heap whose stored records are readable, [get_total_tokens]
    returns every time it is called; after any number of calls in a row
    every object that existed before them, so every stored record and
    every record nested in one, still holds the fields and values it held,
    the store reads as the same value-level store, and each call's result
    reads as the same record: the totals the value-level
    [get_total_tokens] returns. *)
Theorem get_total_tokens_is_read_only n self h store calls :
  closed h ->
  reify_store (S n) h (usage_data self) = Some store ->
  exists totals h',
    repeat_get_total_tokens calls (S n) self h = Some (totals, h')
    /\ List.length totals = calls
    /\ (forall a o, nth_error h a = Some o -> nth_error h' a = Some o)
    /\ reify_store (S n) h' (usage_data self) = Some store
    /\ Values.get_total_tokens (Values.mkUsageTracker store)
       = Ok (totals_of store [])
    /\ forall t, In t totals ->
         reify (S (S n)) h' (HRef t) = Some (totals_value (totals_of store [])).
Proof.
  intros Hc Hstore.
  destruct (repeat_get_total_tokens_spec n self store calls h Hc Hstore)
    as (totals & h' & Hrep & Hlen & Hext & _ & Hall).
  exists totals, h'. split; [exact Hrep|]. split; [exact Hlen|].
  split; [exact Hext|].
  split; [now apply (reify_store_extends (S n) h)|].
  split; [apply get_total_tokens_ok|].
  now apply Forall_forall.
Qed.

Example get_total_tokens_is_read_only_witness :
  let h : heap :=
    [ [("total", HInt 50); ("streaming", HBool true)];
      [("prompt_tokens", HRef 0%nat); ("completion_tokens", HInt 10)];
      [("total", HInt 50); ("streaming", HBool true)];
      [("prompt_tokens", HRef 2%nat); ("model", HStr "bedrock")] ] in
  let self := mkUsageTracker [("bedrock/claude-3", [1%nat; 3%nat])] in
  let store :=
    [("bedrock/claude-3",
      [[("prompt_tokens", VDict [("total", VInt 50); ("streaming", VBool true)]);
        ("completion_tokens", VInt 10)];
       [("prompt_tokens", VDict [("total", VInt 50); ("streaming", VBool true)]);
        ("model", VStr "bedrock")]])] in
  exists totals h',
    repeat_get_total_tokens 3 2 self h = Some (totals, h')
    /\ List.length totals = 3%nat
    /\ (forall a o, nth_error h a = Some o -> nth_error h' a = Some o)
    /\ reify_store 2 h' (usage_data self) = Some store
    /\ Values.get_total_tokens (Values.mkUsageTracker store)
       = Ok (totals_of store [])
    /\ forall t, In t totals ->
         reify 3 h' (HRef t) = Some (totals_value (totals_of store [])).
Proof.
  intros h self store.
  apply (get_total_tokens_is_read_only 1 self h store 3).
  - apply closedb_sound. reflexivity.
  - reflexivity.
Defined.

(** *** The merge does not write to its arguments *)

(** X13: merging two stored records allocates the result as a new object
    and leaves every object that existed as it was: both arguments, and
    every record nested in them, read as before, and the result reads as
    the value-level merge of the two. *)
Theorem merge_leaves_its_arguments_alone n a1 a2 h d1 d2 :
  closed h ->
  reify n h (HRef a1) = Some (VDict d1) ->
  reify n h (HRef a2) = Some (VDict d2) ->
  exists h' d,
    _merge_usage_entries n a1 a2 h = Some (List.length h, h')
    /\ (forall a o, nth_error h a = Some o -> nth_error h' a = Some o)
    /\ reify n h' (HRef a1) = Some (VDict d1)
    /\ reify n h' (HRef a2) = Some (VDict d2)
    /\ Values._merge_usage_entries (Some d1) (Some d2) = Ok d
    /\ reify n h' (HRef (List.length h)) = Some (VDict d).
Proof.
  intros Hc H1 H2.
  destruct (merge_refines n a1 a2 h d1 d2 Hc H1 H2) as (h' & Hm & Hch & _ & Hd).
  pose proof (changes_extends no_extra h h' Hch) as Hext.
  exists h', (merge_dicts merge_values d1 d2).
  split; [exact Hm|]. split; [exact Hext|].
  split; [now apply (reify_extends n h h')|].
  split; [now apply (reify_extends n h h')|].
  split; [apply merge_two_dicts|exact Hd].
Qed.

Example merge_leaves_its_arguments_alone_witness :
  let h : heap :=
    [ [("total", HInt 50); ("streaming", HBool true)];
      [("prompt_tokens", HRef 0%nat); ("completion_tokens", HInt 10)];
      [("total", HInt 50)];
      [("prompt_tokens", HRef 2%nat); ("model", HStr "bedrock")] ] in
  let d1 := [("prompt_tokens", VDict [("total", VInt 50); ("streaming", VBool true)]);
             ("completion_tokens", VInt 10)] in
  let d2 := [("prompt_tokens", VDict [("total", VInt 50)]);
             ("model", VStr "bedrock")] in
  exists h' d,
    _merge_usage_entries 2 1%nat 3%nat h = Some (List.length h, h')
    /\ (forall a o, nth_error h a = Some o -> nth_error h' a = Some o)
    /\ reify 2 h' (HRef 1%nat) = Some (VDict d1)
    /\ reify 2 h' (HRef 3%nat) = Some (VDict d2)
    /\ Values._merge_usage_entries (Some d1) (Some d2) = Ok d
    /\ reify 2 h' (HRef (List.length h)) = Some (VDict d).
Proof.
  intros h d1 d2.
  apply (merge_leaves_its_arguments_alone 2 1%nat 3%nat h d1 d2).
  - apply closedb_sound. reflexivity.
  - reflexivity.
  - reflexivity.
Defined.

(** *** Dictionaries read value by value *)

Section ReadValues.
Variables A B : Type.
Variable g : A -> option B.

Lemma read_values_cons k x (rest : Dict.t A) d :
  mapM (fun p => option_map (pair (fst p)) (g (snd p))) ((k, x) :: rest) = Some d ->
  exists v d', g x = Some v
               /\ mapM (fun p => option_map (pair (fst p)) (g (snd p))) rest = Some d'
               /\ d = (k, v) :: d'.
Proof.
  simpl. destruct (g x) as [v|]; [|discriminate]. simpl.
  destruct (mapM _ rest) as [d'|]; [|discriminate].
  intros [= <-]. now exists v, d'.
Qed.

Lemma read_values_get k (a : Dict.t A) d :
  mapM (fun p => option_map (pair (fst p)) (g (snd p))) a = Some d ->
  Dict.get k d = match Dict.get k a with
                 | Some x => g x
                 | None => None
                 end.
Proof.
  revert d. induction a as [|[k0 x0] rest IH]; intros d Hd.
  - injection Hd as <-. reflexivity.
  - apply read_values_cons in Hd as (v0 & d' & Hv0 & Hrest & ->). simpl.
    destruct (String.eqb k k0); [now rewrite Hv0|now apply IH].
Qed.

Lemma read_values_set k x v (a : Dict.t A) d :
  mapM (fun p => option_map (pair (fst p)) (g (snd p))) a = Some d ->
  g x = Some v ->
  mapM (fun p => option_map (pair (fst p)) (g (snd p))) (Dict.set k x a)
  = Some (Dict.set k v d).
Proof.
  intros Hd Hx. revert d Hd.
  induction a as [|[k0 x0] rest IH]; intros d Hd.
  - injection Hd as <-. simpl. now rewrite Hx.
  - apply read_values_cons in Hd as (v0 & d' & Hv0 & Hrest & ->). simpl.
    destruct (String.eqb k k0); simpl.
    + now rewrite Hx, Hrest.
    + now rewrite Hv0, (IH d' Hrest).
Qed.
End ReadValues.

Lemma mapM_app (A B : Type) (g : A -> option B) (l1 l2 : list A) ys1 ys2 :
  mapM g l1 = Some ys1 -> mapM g l2 = Some ys2 ->
  mapM g (l1 ++ l2)%list = Some (ys1 ++ ys2)%list.
Proof.
  revert ys1. induction l1 as [|x rest IH]; intros ys1; simpl.
  - now intros [= <-].
  - destruct (g x) as [y|]; [|discriminate].
    destruct (mapM g rest) as [ys|]; [|discriminate].
    intros [= <-] H2. now rewrite (IH ys eq_refl H2).
Qed.

Lemma mapM_length (A B : Type) (g : A -> option B) (l : list A) ys :
  mapM g l = Some ys -> List.length ys = List.length l.
Proof.
  revert ys. induction l as [|x rest IH]; intros ys; simpl.
  - now intros [= <-].
  - destruct (g x) as [y|]; [|discriminate].
    destruct (mapM g rest) as [ys'|]; [|discriminate].
    intros [= <-]. simpl. now rewrite (IH ys').
Qed.

(** *** Normalizing a record on the heap *)

Lemma truthy_at_reify n h x v :
  reify n h x = Some v -> truthy_at h x = Some (truthy v).
Proof.
  intros Hv. destruct (is_ref_cases x) as [[a ->]|Hs].
  - destruct (reify_ref_dict _ _ _ _ Hv) as (n' & o & d & _ & Ho & Hd & ->).
    simpl. rewrite Ho. now rewrite (reify_fields_is_empty _ _ _ _ Hd).
  - destruct (reify_not_ref _ _ _ _ Hs Hv) as [-> _]. now destruct x.
Qed.

Lemma py_dict_truthy_scalar v :
  is_dict v = false -> truthy v = true -> exists e, py_dict v = Raise e.
Proof.
  destruct v as [| | |s|]; simpl; try discriminate; eauto.
  intros _ Hs. apply negb_true_iff in Hs. rewrite Hs. eauto.
Qed.

(** One detail field: the object-level step does what the value-level step
    does, and writes to [result] only. *)
Lemma copy_details_refines n field res h (r : obj) d :
  closed h -> ~ referenced h res ->
  nth_error h res = Some r -> reify_fields n h r = Some d ->
  exists h',
    changes res no_extra h h'
    /\ match Values.copy_details field d with
       | Ok d' =>
           copy_details field res h = Some (Ok tt, h')
           /\ exists r', nth_error h' res = Some r'
                         /\ reify_fields n h' r' = Some d'
       | Raise e => copy_details field res h = Some (Raise e, h')
       end.
Proof.
  intros Hc Hunref Hres Hd.
  pose proof (nth_error_lt _ _ _ _ Hres) as Hlt.
  unfold copy_details, Values.copy_details. rewrite Hres.
  destruct (Dict.get field r) as [x|] eqn:Hx.
  2:{ rewrite (reify_fields_get_none _ _ _ _ _ Hd Hx).
      exists h. split; [apply changes_refl|]. split; [reflexivity|].
      now exists r. }
  destruct (reify_fields_get_some _ _ _ _ _ _ Hd Hx) as (vx & Hvx & Hget).
  rewrite Hget, (truthy_at_reify _ _ _ _ Hvx).
  destruct (truthy vx) eqn:Ht.
  2:{ exists h. split; [apply changes_refl|]. split; [reflexivity|].
      now exists r. }
  destruct (is_ref_cases x) as [[p ->]|Hs].
  - destruct (reify_ref_dict _ _ _ _ Hvx) as (n' & op & dp & Hn & Hp & Hdp & ->).
    cbn [py_dict bind]. unfold copy, alloc. rewrite Hp.
    set (h1 := (h ++ [op])%list).
    assert (Hch1 : changes res no_extra h h1).
    { apply changes_alloc. intros k' y Hin. now apply (cell_referenced h p op k'). }
    assert (He1 : extends h h1) by apply extends_app.
    assert (Hunref1 : ~ referenced h1 res).
    { intros Hr. apply Hunref. revert Hr. apply referenced_alloc.
      intros k' y Hin. now apply (cell_referenced h p op k'). }
    destruct (setitem_spec n h1 res field (HRef (List.length h)) (VDict dp) r d)
      as (h2 & Hset & Hch2 & Hres2 & Hd2); auto.
    { intros [= Heq]. lia. }
    { now apply (reify_fields_extends n h). }
    { rewrite Hn, reify_ref.
      replace (nth_error h1 (List.length h)) with (Some op)
        by (symmetry; apply nth_error_alloc).
      now rewrite (reify_fields_extends n' h h1 op dp He1 Hdp). }
    exists h2. split.
    + apply (changes_trans res no_extra
               (fun y => HRef (List.length h) = HRef y) _ h h1 h2 Hch1 Hch2).
      * intros y [].
      * intros y [= <-]. right. left.
        destruct Hch2 as (_ & Hl2 & _). split; [lia|].
        unfold h1 in Hl2. rewrite length_app in Hl2. simpl in Hl2. lia.
    + rewrite Hset. split; [reflexivity|].
      now exists (Dict.set field (HRef (List.length h)) r).
  - destruct (reify_not_ref _ _ _ _ Hs Hvx) as [-> Hnd].
    destruct (py_dict_truthy_scalar _ Hnd Ht) as [e He].
    rewrite He. cbn [bind].
    exists h. split; [apply changes_refl|].
    destruct x; try discriminate; reflexivity.
Qed.

(** [_flatten_usage_entry] on an object does what it does on the value the
    object reads as, in a new object, and changes no object that existed. *)
Lemma flatten_refines n h a (o : obj) d :
  closed h -> nth_error h a = Some o -> reify_fields n h o = Some d ->
  exists h',
    changes (List.length h) no_extra h h'
    /\ match Values._flatten_usage_entry d with
       | Ok d' =>
           _flatten_usage_entry a h = Some (Ok (List.length h), h')
           /\ reify (S n) h' (HRef (List.length h)) = Some (VDict d')
       | Raise e => _flatten_usage_entry a h = Some (Raise e, h')
       end.
Proof.
  intros Hc Ha Hd. unfold _flatten_usage_entry, Values._flatten_usage_entry.
  unfold copy, alloc. rewrite Ha.
  set (res := List.length h). set (h1 := (h ++ [o])%list).
  assert (Ho : forall k y, In (k, HRef y) o -> referenced h y)
    by (intros k y Hin; now apply (cell_referenced h a o k)).
  assert (Hch1 : changes res no_extra h h1) by now apply changes_alloc.
  assert (Hc1 : closed h1).
  { apply (changes_closed _ _ _ _ Hch1 Hc). intros x []. }
  assert (Hunref1 : ~ referenced h1 res).
  { intros Hr. apply (closed_fresh_unreferenced h Hc).
    now apply (referenced_alloc h o). }
  assert (Hlt : (res < List.length h1)%nat)
    by (unfold h1, res; rewrite length_app; simpl; lia).
  destruct (copy_details_refines n "completion_tokens_details" res h1 o d
              Hc1 Hunref1 (nth_error_alloc h o)
              (reify_fields_extends n h h1 o d (extends_app h [o]) Hd))
    as (h2 & Hch2 & Hstep1).
  destruct (Values.copy_details "completion_tokens_details" d) as [d1|e1].
  2:{ exists h2. cbn [bind]. rewrite Hstep1. split; [|reflexivity].
      apply (changes_trans res no_extra no_extra no_extra h h1 h2 Hch1 Hch2);
        intros x []. }
  destruct Hstep1 as (Hrun1 & r1 & Hres1 & Hd1). rewrite Hrun1. cbn [bind].
  assert (Hc2 : closed h2).
  { apply (changes_closed _ _ _ _ Hch2 Hc1). intros x []. }
  assert (Hunref2 : ~ referenced h2 res).
  { apply (changes_unreferenced _ _ _ _ _ Hch2 Hunref1 Hlt). intros []. }
  destruct (copy_details_refines n "prompt_tokens_details" res h2 r1 d1
              Hc2 Hunref2 Hres1 Hd1) as (h3 & Hch3 & Hstep2).
  assert (Hch : changes res no_extra h h3).
  { apply (changes_trans res no_extra no_extra no_extra h h2 h3);
      [|exact Hch3|intros x []|intros x []].
    apply (changes_trans res no_extra no_extra no_extra h h1 h2 Hch1 Hch2);
      intros x []. }
  exists h3. split; [exact Hch|].
  destruct (Values.copy_details "prompt_tokens_details" d1) as [d2|e2].
  - destruct Hstep2 as (Hrun2 & r2 & Hres2 & Hd2). rewrite Hrun2.
    split; [reflexivity|]. rewrite reify_ref. fold res. now rewrite Hres2, Hd2.
  - now rewrite Hstep2.
Qed.

(** *** Recording on the heap *)

Lemma read_values_get_some (A B : Type) (g : A -> option B) k x
    (a : Dict.t A) d :
  mapM (fun p => option_map (pair (fst p)) (g (snd p))) a = Some d ->
  Dict.get k a = Some x ->
  exists v, g x = Some v /\ Dict.get k d = Some v.
Proof.
  revert d. induction a as [|[k0 x0] rest IH]; intros d Hd; simpl.
  - discriminate.
  - apply read_values_cons in Hd as (v0 & d' & Hv0 & Hrest & ->). simpl.
    destruct (String.eqb k k0).
    + intros [= <-]. now exists v0.
    + now apply IH.
Qed.

Lemma reify_store_stable n h h' r (data : Dict.t (list addr)) vstore :
  same_but r h h' -> ~ referenced h r ->
  Forall (fun p => Forall (fun s => s <> r) (snd p)) data ->
  reify_store n h data = Some vstore -> reify_store n h' data = Some vstore.
Proof.
  intros Hs Hr Hne. unfold reify_store. apply mapM_mono.
  intros [lm es] y Hin. simpl.
  destruct (mapM (reify_dict n h) es) as [ds|] eqn:Hds; [|discriminate].
  intros Hy.
  rewrite (mapM_mono _ _ (reify_dict n h) (reify_dict n h') es ds); auto.
  intros s d Hs_in Hd. apply reify_dict_ref.
  apply (reify_stable n h h' r); auto.
  - intros [= ->]. rewrite Forall_forall in Hne.
    specialize (Hne _ Hin). simpl in Hne.
    rewrite Forall_forall in Hne. now apply (Hne r).
  - now apply reify_dict_ref.
Qed.

(** [add_usage] on objects does what [add_usage] does on the values they
    read as; it changes no object that existed and stores only new ones. *)
Lemma add_usage_refines n lm a self h vstore d :
  closed h ->
  reify_store (S n) h (usage_data self) = Some vstore ->
  reify_dict (S n) h a = Some d ->
  exists self' h',
    add_usage lm a self h
    = Some ((self', h'),
            snd (Values.add_usage lm d (Values.mkUsageTracker vstore)))
    /\ changes (List.length h) no_extra h h'
    /\ reify_store (S n) h' (usage_data self')
       = Some (Values.usage_data
                 (fst (Values.add_usage lm d (Values.mkUsageTracker vstore))))
    /\ (forall x, (x < List.length h)%nat ->
          Forall (fun p => Forall (fun s => s <> x) (snd p)) (usage_data self) ->
          Forall (fun p => Forall (fun s => s <> x) (snd p)) (usage_data self')).
Proof.
  intros Hc Hstore Hd. apply reify_dict_ref in Hd. rewrite reify_ref in Hd.
  destruct (nth_error h a) as [o|] eqn:Ha; [|discriminate].
  destruct (reify_fields n h o) as [d'|] eqn:Hfields; [|discriminate].
  injection Hd as ->.
  pose proof (mapM_length _ _ _ _ _ Hfields) as Hlen.
  unfold add_usage, Values.add_usage. cbn [Values.usage_data].
  rewrite Ha, Hlen.
  destruct (0 <? List.length o)%nat.
  2:{ exists self, h. split; [reflexivity|]. split; [apply changes_refl|].
      split; [exact Hstore|]. auto. }
  (* the sequence for [lm], created when missing *)
  assert (Hget : exists entries data ventries vdata,
             defaultdict_getitem lm (usage_data self) = (entries, data)
             /\ Values.defaultdict_getitem lm vstore = (ventries, vdata)
             /\ mapM (reify_dict (S n) h) entries = Some ventries
             /\ reify_store (S n) h data = Some vdata
             /\ (forall x,
                   Forall (fun p => Forall (fun s => s <> x) (snd p)) (usage_data self) ->
                   Forall (fun s => s <> x) entries
                   /\ Forall (fun p => Forall (fun s => s <> x) (snd p)) data)).
  { unfold defaultdict_getitem, Values.defaultdict_getitem.
    destruct (Dict.get lm (usage_data self)) as [entries|] eqn:Hlm.
    - destruct (read_values_get_some _ _ _ lm entries _ _ Hstore Hlm)
        as (ventries & Hentries & Hvlm).
      rewrite Hvlm. exists entries, (usage_data self), ventries, vstore.
      repeat split; auto.
      exact (Forall_values_get _ (fun es => Forall (fun s => s <> x) es)
               lm entries _ H Hlm).
    - pose proof (read_values_get _ _ _ lm _ _ Hstore) as Hvlm.
      rewrite Hlm in Hvlm. rewrite Hvlm.
      exists [], (Dict.set lm [] (usage_data self)), [], (Dict.set lm [] vstore).
      repeat split; auto.
      + now apply (read_values_set _ _ (mapM (reify_dict (S n) h))).
      + apply (Forall_values_set _ (fun es => Forall (fun s => s <> x) es));
          [constructor|assumption]. }
  destruct Hget as (entries & data & ventries & vdata
                    & -> & -> & Hentries & Hdata & Hne).
  destruct (flatten_refines n h a o d Hc Ha Hfields) as (h' & Hch & Hflat).
  pose proof (changes_extends no_extra h h' Hch) as Hext.
  destruct (Values._flatten_usage_entry d) as [d1|e].
  - destruct Hflat as (Hrun & Hd1). rewrite Hrun.
    exists (mkUsageTracker (Dict.set lm (entries ++ [List.length h])%list data)), h'.
    split; [reflexivity|]. split; [exact Hch|]. cbn [fst snd usage_data].
    split.
    + apply (read_values_set _ _ (mapM (reify_dict (S n) h'))).
      * now apply (reify_store_extends (S n) h).
      * apply mapM_app.
        -- now apply (reify_dicts_extends (S n) h).
        -- simpl. now rewrite (proj2 (reify_dict_ref _ _ _ _) Hd1).
    + intros x Hx Hall. destruct (Hne x Hall) as [He Hdt].
      apply (Forall_values_set _ (fun es => Forall (fun s => s <> x) es));
        [|assumption].
      apply Forall_app. split; [assumption|]. constructor; [lia|constructor].
  - rewrite Hflat. exists (mkUsageTracker data), h'.
    split; [reflexivity|]. split; [exact Hch|]. cbn [fst snd usage_data].
    split; [now apply (reify_store_extends (S n) h)|].
    intros x Hx Hall. now destruct (Hne x Hall).
Qed.



(** X15: whatever the caller writes into its record after [add_usage]
    returned, every stored record reads as before, when no object refers
    to the caller's record and it is not itself a stored record. *)
Theorem caller_writes_do_not_reach_the_store n lm a self h vstore d (o' : obj) :
  closed h -> ~ referenced h a ->
  Forall (fun p => Forall (fun s => s <> a) (snd p)) (usage_data self) ->
  reify_store (S n) h (usage_data self) = Some vstore ->
  reify_dict (S n) h a = Some d ->
  exists self' h' outcome vstore',
    add_usage lm a self h = Some ((self', h'), outcome)
    /\ reify_store (S n) h' (usage_data self') = Some vstore'
    /\ reify_store (S n) (store a o' h') (usage_data self') = Some vstore'.
Proof.
  intros Hc Hunref Hne Hstore Hd.
  destruct (add_usage_refines n lm a self h vstore d Hc Hstore Hd)
    as (self' & h' & Hrun & Hch & Hstore' & Hne').
  assert (Hlt : (a < List.length h)%nat).
  { apply reify_dict_ref in Hd.
    destruct (reify_ref_dict _ _ _ _ Hd) as (_ & o & _ & _ & Ho & _).
    now apply nth_error_lt in Ho. }
  do 4 eexists. split; [exact Hrun|]. split; [exact Hstore'|].
  apply (reify_store_stable (S n) h' _ a); auto.
  - intros x o Hx Ho. now rewrite nth_error_store_neq by congruence.
  - apply (changes_unreferenced _ _ _ _ _ Hch Hunref Hlt). intros [].
Qed.

Example caller_writes_do_not_reach_the_store_witness :
  let h : heap :=
    [ [("cached_tokens", HInt 200)];
      [("prompt_tokens", HInt 1117); ("prompt_tokens_details", HRef 0%nat)] ] in
  let self := mkUsageTracker [] in
  exists self' h' outcome vstore',
    add_usage "gpt-4o-mini" 1%nat self h = Some ((self', h'), outcome)
    /\ reify_store 2 h' (usage_data self') = Some vstore'
    /\ reify_store 2 (store 1%nat [("prompt_tokens", HStr "overwritten")] h')
         (usage_data self') = Some vstore'.
Proof.
  intros h self.
  apply (caller_writes_do_not_reach_the_store 1 "gpt-4o-mini" 1%nat self h []
           [("prompt_tokens", VInt 1117);
            ("prompt_tokens_details", VDict [("cached_tokens", VInt 200)])]).
  - apply closedb_sound. reflexivity.
  - intros (x & o & k & Hx & Hin).
    destruct x as [|[|x]]; simpl in Hx;
      [injection Hx as <-|injection Hx as <-|destruct x; discriminate];
      simpl in Hin; intuition discriminate.
  - constructor.
  - reflexivity.
  - reflexivity.
Defined.

(** *** Which objects a stored record shares with the caller's *)

Lemma setitem_after_alloc res field x (c : obj) h (r : obj) h' :
  nth_error h res = Some r ->
  setitem res field x (h ++ [c])%list = Some h' ->
  same_but res h h'
  /\ (List.length h < List.length h')%nat
  /\ nth_error h' res = Some (Dict.set field x r)
  /\ nth_error h' (List.length h) = Some c.
Proof.
  intros Hres. pose proof (nth_error_lt _ _ _ _ Hres) as Hlt.
  unfold setitem. rewrite (extends_app h [c] res r Hres). intros [= <-].
  split; [|split; [|split]].
  - intros a o Hne Ha. rewrite nth_error_store_neq by congruence.
    now apply extends_app.
  - rewrite length_store, length_app. simpl. lia.
  - apply nth_error_store_eq. rewrite length_app. simpl. lia.
  - rewrite nth_error_store_neq by lia. apply nth_error_alloc.
Qed.

(** One detail field leaves the other objects and the other fields of
    [result] as they were. *)
Lemma copy_details_frame field res h (r : obj) out h' :
  nth_error h res = Some r ->
  copy_details field res h = Some (out, h') ->
  same_but res h h'
  /\ (List.length h <= List.length h')%nat
  /\ exists r', nth_error h' res = Some r'
                /\ forall k, k <> field -> Dict.get k r' = Dict.get k r.
Proof.
  intros Hres. unfold copy_details. rewrite Hres.
  assert (Hsame : same_but res h h /\ (List.length h <= List.length h)%nat
                  /\ exists r', nth_error h res = Some r'
                                /\ forall k, k <> field -> Dict.get k r' = Dict.get k r).
  { split; [now intros a o|]. split; [lia|]. now exists r. }
  assert (Hnew : forall x (c : obj) h'',
             setitem res field x (h ++ [c])%list = Some h'' ->
             same_but res h h'' /\ (List.length h <= List.length h'')%nat
             /\ exists r', nth_error h'' res = Some r'
                           /\ forall k, k <> field -> Dict.get k r' = Dict.get k r).
  { intros x c h'' Hset.
    destruct (setitem_after_alloc res field x c h r h'' Hres Hset)
      as (Hs & Hl & Hr & _).
    split; [exact Hs|]. split; [lia|].
    exists (Dict.set field x r). split; [exact Hr|].
    intros k Hk. now apply get_set_neq. }
  destruct (Dict.get field r) as [x|]; [|now intros [= <- <-]].
  destruct (truthy_at h x) as [[|]|]; [|now intros [= <- <-]|discriminate].
  destruct x as [| |z|s|p]; cbn [scalar_value py_dict];
    try (intros [= <- <-]; exact Hsame).
  - destruct (String.eqb s ""); [|intros [= <- <-]; exact Hsame].
    unfold alloc.
    destruct (setitem res field _ _) as [h''|] eqn:Hset;
      cbn [option_map]; [|discriminate].
    intros [= <- <-]. now apply (Hnew _ _ _ Hset).
  - unfold copy, alloc. destruct (nth_error h p) as [op|]; [|discriminate].
    destruct (setitem res field _ _) as [h''|] eqn:Hset;
      cbn [option_map]; [|discriminate].
    intros [= <- <-]. now apply (Hnew _ _ _ Hset).
Qed.

(** A detail field that holds a nested record: an empty one is left in
    place, a non-empty one is replaced by a new object with its fields. *)
Lemma copy_details_of_record field res h (r op : obj) p out h' :
  nth_error h res = Some r ->
  Dict.get field r = Some (HRef p) -> nth_error h p = Some op ->
  copy_details field res h = Some (out, h') ->
  if Dict.is_empty op then h' = h
  else exists r', nth_error h' res = Some r'
                  /\ Dict.get field r' = Some (HRef (List.length h))
                  /\ nth_error h' (List.length h) = Some op.
Proof.
  intros Hres Hfield Hp. unfold copy_details.
  rewrite Hres, Hfield. cbn [truthy_at]. rewrite Hp.
  destruct (Dict.is_empty op); cbn [negb]; [now intros [= _ <-]|].
  unfold copy, alloc. rewrite Hp.
  destruct (setitem res field _ _) as [h''|] eqn:Hset;
    cbn [option_map]; [|discriminate].
  intros [= _ <-].
  destruct (setitem_after_alloc res field _ op h r h'' Hres Hset)
    as (_ & _ & Hr & Hc).
  exists (Dict.set field (HRef (List.length h)) r).
  split; [exact Hr|]. split; [apply get_set_eq|exact Hc].
Qed.

(** X16: normalizing a record whose detail fields are harmless copies a
    non-empty detail record into a new object, so the stored record does not
    share it with the caller; an empty detail record is not copied and stays
    shared. The caller's detail object itself is left as it was. *)
Theorem detail_records_are_copied_unless_empty n field a h (o op : obj) d p :
  field = "completion_tokens_details" \/ field = "prompt_tokens_details" ->
  closed h -> nth_error h a = Some o -> reify_fields n h o = Some d ->
  details_ok "completion_tokens_details" d = true ->
  details_ok "prompt_tokens_details" d = true ->
  Dict.get field o = Some (HRef p) -> nth_error h p = Some op ->
  exists h' r',
    _flatten_usage_entry a h = Some (Ok (List.length h), h')
    /\ nth_error h' (List.length h) = Some r'
    /\ nth_error h' p = Some op
    /\ if Dict.is_empty op then Dict.get field r' = Some (HRef p)
       else exists c, Dict.get field r' = Some (HRef c)
                      /\ (List.length h < c)%nat
                      /\ nth_error h' c = Some op.
Proof.
  intros Hfield Hc Ha Hd Hok1 Hok2 Hget Hp.
  destruct (flatten_refines n h a o d Hc Ha Hd) as (h' & _ & Hflat).
  rewrite (proj2 (flatten_ok_iff d) (conj Hok1 Hok2)) in Hflat.
  destruct Hflat as (Hrun & _). exists h'.
  pose proof Hrun as Hsteps. unfold _flatten_usage_entry in Hsteps.
  unfold copy, alloc in Hsteps. rewrite Ha in Hsteps.
  set (res := List.length h) in *. set (h1 := (h ++ [o])%list) in *.
  assert (Hres1 : nth_error h1 res = Some o) by apply nth_error_alloc.
  assert (Hlen1 : List.length h1 = S res)
    by (unfold h1, res; rewrite length_app; simpl; lia).
  assert (Hplt : (p < res)%nat) by now apply nth_error_lt in Hp.
  assert (Hp1 : nth_error h1 p = Some op) by now apply extends_app.
  destruct (copy_details "completion_tokens_details" res h1)
    as [[[u1|e1] h2]|] eqn:H1; try discriminate.
  destruct (copy_details "prompt_tokens_details" res h2)
    as [[[u2|e2] h3]|] eqn:H2; try discriminate.
  injection Hsteps as <-.
  destruct (copy_details_frame _ _ _ _ _ _ Hres1 H1)
    as (Hs1 & Hl1 & r1 & Hr1 & Hk1).
  destruct (copy_details_frame _ _ _ _ _ _ Hr1 H2)
    as (Hs2 & Hl2 & r2 & Hr2 & Hk2).
  exists r2. split; [exact Hrun|]. split; [exact Hr2|].
  assert (Hp2 : nth_error h2 p = Some op) by (apply Hs1; [lia|assumption]).
  split; [apply Hs2; [lia|assumption]|].
  destruct Hfield as [-> | ->].
  - pose proof (copy_details_of_record _ _ _ _ _ _ _ _ Hres1 Hget Hp1 H1) as Hcopy.
    destruct (Dict.is_empty op).
    + subst h2. rewrite Hres1 in Hr1. injection Hr1 as <-.
      rewrite Hk2 by discriminate. exact Hget.
    + destruct Hcopy as (r1' & Hr1' & Hf1 & Hc1).
      rewrite Hr1 in Hr1'. injection Hr1' as <-.
      exists (List.length h1). split; [|split].
      * rewrite Hk2 by discriminate. exact Hf1.
      * lia.
      * apply Hs2; [lia|assumption].
  - assert (Hget1 : Dict.get "prompt_tokens_details" r1 = Some (HRef p))
      by (rewrite Hk1 by discriminate; exact Hget).
    pose proof (copy_details_of_record _ _ _ _ _ _ _ _ Hr1 Hget1 Hp2 H2) as Hcopy.
    destruct (Dict.is_empty op).
    + subst h3. rewrite Hr1 in Hr2. injection Hr2 as <-. exact Hget1.
    + destruct Hcopy as (r2' & Hr2' & Hf2 & Hc2).
      rewrite Hr2 in Hr2'. injection Hr2' as <-.
      exists (List.length h2). split; [exact Hf2|]. split; [lia|exact Hc2].
Qed.

Example detail_records_are_copied_unless_empty_witness :
  let h : heap :=
    [ [("cached_tokens", HInt 200)];
      [];
      [("prompt_tokens", HInt 1117); ("prompt_tokens_details", HRef 0%nat);
       ("completion_tokens_details", HRef 1%nat)] ] in
  exists h' r',
    _flatten_usage_entry 2%nat h = Some (Ok (List.length h), h')
    /\ nth_error h' (List.length h) = Some r'
    /\ nth_error h' 0%nat = Some [("cached_tokens", HInt 200)]
    /\ if Dict.is_empty [("cached_tokens", HInt 200)]
       then Dict.get "prompt_tokens_details" r' = Some (HRef 0%nat)
       else exists c, Dict.get "prompt_tokens_details" r' = Some (HRef c)
                      /\ (List.length h < c)%nat
                      /\ nth_error h' c = Some [("cached_tokens", HInt 200)].
Proof.
  intro h.
  apply (detail_records_are_copied_unless_empty 1 "prompt_tokens_details" 2%nat h
           [("prompt_tokens", HInt 1117); ("prompt_tokens_details", HRef 0%nat);
            ("completion_tokens_details", HRef 1%nat)]
           [("cached_tokens", HInt 200)]
           [("prompt_tokens", VInt 1117);
            ("prompt_tokens_details", VDict [("cached_tokens", VInt 200)]);
            ("completion_tokens_details", VDict [])]
           0%nat).
  - now right.
  - apply closedb_sound. reflexivity.
  - reflexivity.
  - reflexivity.
  - reflexivity.
  - reflexivity.
  - reflexivity.
  - reflexivity.
Defined.

End HeapFacts.
